(** * terminaltexteffects: the rain effect scheduler, the terminal
      operations and the command-line entry point

    A shallow embedding of

    - [utils/terminaloperations.py] ([print_character], [get_piped_input]),
    - [terminaltexteffects/examples/effect_rain.py] ([RainEffect]),
    - [terminaltexteffects/__main__.py] ([main]),

    followed by the properties proved about them.  Python objects shared
    by reference (the characters owned by the terminal) live in a store,
    the list [characters]; the lists and the dict of the effect hold
    indices into it.  Classes and functions that the three files call
    and that are not among them ([EffectCharacter.tick], the scenes and
    paths set up in [prepare_data], [Gradient], [argparse], the [random]
    module) are parameters of the model. *)

From Stdlib Require Import ZArith String.
From stdpp Require Import gmap list strings sorting.

Local Open Scope Z_scope.
Local Open Scope string_scope.
Local Open Scope list_scope.

(** ** Geometry and characters *)

(** [Coord(column, row)], in the positional order [effect_rain.py] uses. *)
Record Coord := mkCoord { column : Z; row : Z }.

Global Instance Coord_eq_dec : EqDecision Coord.
Proof. solve_decision. Defined.

(** The attributes of an [EffectCharacter] that the three source files
    read or write.  [engine] stands for the motion, animation and event
    handler objects, whose classes are not among the source files. *)
Record EffectCharacter (Engine : Type) := mkChar {
  input_symbol : string;
  input_coord : Coord;
  symbol : string;
  current_coord : Coord;
  last_coord : Coord;
  is_visible : bool;
  is_active : bool;
  engine : Engine
}.
Arguments mkChar {Engine}.
Arguments input_symbol {Engine}.
Arguments input_coord {Engine}.
Arguments symbol {Engine}.
Arguments current_coord {Engine}.
Arguments last_coord {Engine}.
Arguments is_visible {Engine}.
Arguments is_active {Engine}.
Arguments engine {Engine}.

(** ** utils/terminaloperations.py *)

Module TerminalOperations.

(** The escape codes of [ANSIcodes] that [move_and_print] emits. *)
Inductive ANSIcode :=
| DEC_SAVE_CURSOR_POSITION
| DEC_RESTORE_CURSOR_POSITION
| MOVE_CURSOR_UP (n : Z)
| MOVE_CURSOR_TO_COLUMN (c : Z).

(** What is done to [sys.stdout], in order. *)
Inductive StdoutOp :=
| WriteCode (code : ANSIcode)
| WriteText (text : string)
| Flush.

Definition move_and_print (sym : string) (r c : Z) : list StdoutOp :=
  [ WriteCode DEC_SAVE_CURSOR_POSITION;
    WriteCode (MOVE_CURSOR_UP r);
    WriteCode (MOVE_CURSOR_TO_COLUMN c);
    WriteText sym;
    WriteCode DEC_RESTORE_CURSOR_POSITION;
    Flush ].

Definition print_character {E} (character : EffectCharacter E)
    (clear_last : bool) : list StdoutOp :=
  move_and_print (symbol character)
                 (row (current_coord character))
                 (column (current_coord character))
  ++ (if clear_last
      then move_and_print " " (row (last_coord character))
                              (column (last_coord character))
      else []).

(** [sys.stdin]: whether it is a terminal, and what a [read()] would
    still return. *)
Record Stdin := mkStdin { isatty : bool; unread : string }.

Definition stdin_read (s : Stdin) : string * Stdin :=
  (unread s, {| isatty := isatty s; unread := "" |}).

Definition get_piped_input (s : Stdin) : string * Stdin :=
  if negb (isatty s) then
    let '(input_data, s') := stdin_read s in (input_data, s')
  else ("", s).

(** *** The terminal that receives the stream

    A DEC terminal keeps one cursor and one saved cursor: DECSC copies
    the cursor into the save slot and DECRC copies it back.  How the
    other codes and the printed text move the cursor depends on the
    screen geometry (margins, wrapping, scrolling); it is left open. *)
Section Emulator.
Context {Cursor : Type}.
Variable cursor_up : Z -> Cursor -> Cursor.
Variable cursor_to_column : Z -> Cursor -> Cursor.
Variable cursor_after_text : string -> Cursor -> Cursor.

Record Screen := mkScreen { cursor : Cursor; saved_cursor : Cursor }.

Definition exec_op (op : StdoutOp) (t : Screen) : Screen :=
  match op with
  | WriteCode DEC_SAVE_CURSOR_POSITION =>
      {| cursor := cursor t; saved_cursor := cursor t |}
  | WriteCode DEC_RESTORE_CURSOR_POSITION =>
      {| cursor := saved_cursor t; saved_cursor := saved_cursor t |}
  | WriteCode (MOVE_CURSOR_UP n) =>
      {| cursor := cursor_up n (cursor t); saved_cursor := saved_cursor t |}
  | WriteCode (MOVE_CURSOR_TO_COLUMN c) =>
      {| cursor := cursor_to_column c (cursor t);
         saved_cursor := saved_cursor t |}
  | WriteText s =>
      {| cursor := cursor_after_text s (cursor t);
         saved_cursor := saved_cursor t |}
  | Flush => t
  end.

Definition exec_ops (ops : list StdoutOp) (t : Screen) : Screen :=
  foldl (fun t op => exec_op op t) t ops.
End Emulator.

(** [bracketed inside ops]: every text written by [ops] comes after a
    save-cursor code with no restore in between, and the stream ends
    outside such a bracket.  [inside] tells whether a save is open. *)
Fixpoint bracketed (inside : bool) (ops : list StdoutOp) : bool :=
  match ops with
  | [] => negb inside
  | WriteCode DEC_SAVE_CURSOR_POSITION :: ops' =>
      negb inside && bracketed true ops'
  | WriteCode DEC_RESTORE_CURSOR_POSITION :: ops' =>
      inside && bracketed false ops'
  | WriteText _ :: ops' => inside && bracketed inside ops'
  | _ :: ops' => bracketed inside ops'
  end.

(** The cells a stream addresses: each text, with the row and column
    of the cursor codes sent since the last save. *)
Record CellWrite := mkCellWrite { cw_text : string; cw_row : Z; cw_column : Z }.

Fixpoint cell_writes_from (r c : Z) (ops : list StdoutOp) : list CellWrite :=
  match ops with
  | [] => []
  | WriteCode DEC_SAVE_CURSOR_POSITION :: ops' => cell_writes_from 0 0 ops'
  | WriteCode (MOVE_CURSOR_UP n) :: ops' => cell_writes_from n c ops'
  | WriteCode (MOVE_CURSOR_TO_COLUMN k) :: ops' => cell_writes_from r k ops'
  | WriteText s :: ops' => mkCellWrite s r c :: cell_writes_from r c ops'
  | _ :: ops' => cell_writes_from r c ops'
  end.

Definition cell_writes : list StdoutOp -> list CellWrite := cell_writes_from 0 0.

End TerminalOperations.

(** ** The Canvas rendering pass *)

Module Canvas.
Import TerminalOperations.

(** What the last rendering pass drew for a character. *)
Record Rendered := mkRendered { r_coord : Coord; r_symbol : string }.

(** Modelled from the spec: the rendering pass of the Canvas
    ([Terminal.print], whose class is not among the source files).  For
    every visible character whose [current_coord] differs from its
    previously rendered position it issues a clear at the previous
    position and a write at the new one, which is [print_character]
    with [clear_last] set; a character that has not moved is written
    again in place only if its symbol changed; a character rendered
    for the first time has nothing to clear. *)
Definition render_character {E} (prev : option Rendered)
    (c : EffectCharacter E) : list StdoutOp :=
  if is_visible c then
    match prev with
    | None => print_character c false
    | Some p =>
        if decide (current_coord c = r_coord p) then
          if decide (symbol c = r_symbol p) then []
          else print_character c false
        else print_character c true
    end
  else [].

(** Modelled from the spec: one frame's output, character by character
    in the order the Canvas holds them, each with the index of the
    character it belongs to. *)
Definition render_pass {E} (characters : list (EffectCharacter E))
    (last_rendered : gmap nat Rendered) : list (nat * list StdoutOp) :=
  imap (fun i c => (i, render_character (last_rendered !! i) c)) characters.

End Canvas.

(** ** terminaltexteffects/__main__.py *)

Module Main.
Import TerminalOperations.

Section Entry.
(** Lines 9 to 28 build the parser from the discovered effects and
    parse the command line; [Args] is the namespace [parse_args]
    returns.  [argparse] ends the process ([SystemExit]) instead of
    returning when the command line is not accepted: [parse_args] is
    then [None].  An [Action] is a step of [main] after line 28: what
    [argparse] itself writes (usage, error, help) is not recorded. *)
Context {Args : Type}.
Variable parse_args : list string -> option Args.

Inductive Action :=
| Print (line : string)
| Construct (input_data : string) (args : Args)
| Run.

Inductive Exit := Returned | SystemExit.

Record Outcome := mkOutcome {
  actions : list Action;
  exit : Exit;
  stdin_after : Stdin
}.

Definition main (argv : list string) (stdin : Stdin) : Outcome :=
  match parse_args argv with
  | None => mkOutcome [] SystemExit stdin
  | Some args =>
      let '(input_data, stdin') := get_piped_input stdin in
      if bool_decide (input_data = "") then
        mkOutcome [Print "NO INPUT."] Returned stdin'
      else
        mkOutcome [Construct input_data args; Run] Returned stdin'
  end.

Definition invokes_engine (a : Action) : bool :=
  match a with
  | Print _ => false
  | Construct _ _ => true
  | Run => true
  end.
End Entry.
End Main.

(** ** terminaltexteffects/examples/effect_rain.py *)

Module Rain.

(** *** Exceptions *)

Inductive PyError := ZeroDivisionError | IndexError | KeyError | ValueError.

Inductive Result (A : Type) :=
| Ok (a : A)
| Raise (e : PyError).
Arguments Ok {A}.
Arguments Raise {A}.

Global Instance Result_ret : MRet Result := fun A a => Ok a.
Global Instance Result_bind : MBind Result := fun A B f m =>
  match m with
  | Ok a => f a
  | Raise e => Raise e
  end.

(** [for x in l: body], over a state that the body may change or
    leave by raising. *)
Fixpoint for_each {A S} (body : A -> S -> Result S) (l : list A) (s : S)
    : Result S :=
  match l with
  | [] => Ok s
  | x :: l' => s' ← body x s; for_each body l' s'
  end.

(** *** Python containers *)

(** [l.pop(i)]: a negative index counts from the end. *)
Definition list_pop {A} (i : Z) (l : list A) : Result (A * list A) :=
  let n := Z.of_nat (length l) in
  let j := if decide (i < 0) then i + n else i in
  if decide (0 <= j < n) then
    match l !! Z.to_nat j with
    | Some x => Ok (x, delete (Z.to_nat j) l)
    | None => Raise IndexError
    end
  else Raise IndexError.

(** [d.keys()] and [d.pop(k)]. *)
Definition keys {V} (d : gmap Z V) : list Z := (map_to_list d).*1.

Definition dict_pop {V} (k : Z) (d : gmap Z V) : Result (V * gmap Z V) :=
  match d !! k with
  | Some v => Ok (v, delete k d)
  | None => Raise KeyError
  end.

(** [min(iterable)]. *)
Definition py_min (l : list Z) : Result Z :=
  match l with
  | [] => Raise ValueError
  | x :: l' => Ok (foldl Z.min x l')
  end.

(** [sorted(l, key=key)].  Python's sort is stable, and a list has one
    stable ordering by a key; insertion from the right computes it. *)
Fixpoint insert_by (key : nat -> Z) (x : nat) (l : list nat) : list nat :=
  match l with
  | [] => [x]
  | y :: l' =>
      if decide (key x <= key y) then x :: y :: l'
      else y :: insert_by key x l'
  end.

Definition sorted (key : nat -> Z) (l : list nat) : list nat :=
  foldr (insert_by key) [] l.

(** *** The [random] module

    The process-wide generator has a state of type [G].  The functions
    the effect calls are built, as in CPython, on [_randbelow(n)], which
    returns an integer below [n], and on [uniform]. *)
Class Random (G Float : Type) := {
  randbelow : nat -> G -> nat * G;
  uniform : Float -> Float -> G -> Float * G;
  randbelow_lt : forall n g, (0 < n)%nat -> ((randbelow n g).1 < n)%nat
}.

Section RandomCalls.
Context {G Float : Type} `{!Random G Float}.

(** [random.randint(a, b)] is [randrange(a, b + 1)]. *)
Definition randint (a b : Z) (g : G) : Result (Z * G) :=
  if decide (a <= b) then
    let '(k, g') := randbelow (Z.to_nat (b - a + 1)) g in
    Ok (a + Z.of_nat k, g')
  else Raise ValueError.

(** [random.choice(seq)] is [seq[_randbelow(len(seq))]]. *)
Definition choice {A} (seq : list A) (g : G) : Result (A * G) :=
  match seq with
  | [] => Raise IndexError
  | _ =>
      let '(i, g') := randbelow (length seq) g in
      match seq !! i with
      | Some x => Ok (x, g')
      | None => Raise IndexError
      end
  end.
End RandomCalls.

(** *** The effect *)

Record RainEffectArgs (Color Float Easing : Type) := mkArgs {
  rain_colors : list Color;
  final_color : Color;
  movement_speed : Float * Float;
  rain_symbols : list string;
  final_gradient_stops : list Color;
  final_gradient_steps : list Z;
  easing : Easing
}.
Arguments mkArgs {Color Float Easing}.
Arguments rain_colors {Color Float Easing}.
Arguments final_color {Color Float Easing}.
Arguments movement_speed {Color Float Easing}.
Arguments rain_symbols {Color Float Easing}.
Arguments final_gradient_stops {Color Float Easing}.
Arguments final_gradient_steps {Color Float Easing}.
Arguments easing {Color Float Easing}.

(** What an observer of a run sees, in order: [terminal.print()],
    [terminal.set_character_visibility(character, True)] and
    [character.tick()], the character being given by its reference. *)
Inductive Event :=
| EvPrint
| EvReveal (i : nat)
| EvTick (i : nat).

Global Instance Event_eq_dec : EqDecision Event.
Proof. solve_decision. Defined.

(** The mutable state a run works on: the characters of the terminal
    (an index into [characters] is a reference to a character), the
    attributes of the [RainEffect] object, the state of the random
    generator, and the events so far. *)
Record State (Color E G : Type) := mkState {
  characters : list (EffectCharacter E);
  pending_chars : list nat;
  active_chars : list nat;
  group_by_row : gmap Z (list nat);
  character_final_color_map : gmap nat Color;
  gen : G;
  trace : list Event
}.
Arguments mkState {Color E G}.
Arguments characters {Color E G}.
Arguments pending_chars {Color E G}.
Arguments active_chars {Color E G}.
Arguments group_by_row {Color E G}.
Arguments character_final_color_map {Color E G}.
Arguments gen {Color E G}.
Arguments trace {Color E G}.

Section Effect.
Context {Color Float Easing E G : Type} `{!Random G Float}.

(** [Gradient(stops, steps).get_color_at_fraction(row / top)], given
    the stops, the steps, [row] and a non-zero [top].  The [graphics]
    module is outside this development: the constructor of line 107 and
    [get_color_at_fraction] are taken to return, so an exception of
    their own is not among the [Raise] results below. *)
Variable color_at_fraction : list Color -> list Z -> Z -> Z -> Color.

(** Lines 116 to 134 of [prepare_data]: the scenes, the path from
    the top of the output area, the event and their activation, for
    one character, from the rain colour, the rain symbol, the final
    colour, the top row, the speed and the easing function.  The
    animation, motion and event classes are outside this development
    and their calls are taken to return. *)
Variable rain_setup :
  Color -> string -> Color -> Z -> Float -> Easing ->
  EffectCharacter E -> EffectCharacter E.

(** [EffectCharacter.tick]. *)
Variable tick : EffectCharacter E -> EffectCharacter E.

(** [self.args] and [self.terminal.output_area.top]. *)
Variable args : RainEffectArgs Color Float Easing.
Variable top : Z.

Abbreviation State := (State Color E G).

Definition set_characters (cs : list (EffectCharacter E)) (s : State) : State :=
  mkState cs (pending_chars s) (active_chars s) (group_by_row s)
          (character_final_color_map s) (gen s) (trace s).
Definition set_pending_chars (p : list nat) (s : State) : State :=
  mkState (characters s) p (active_chars s) (group_by_row s)
          (character_final_color_map s) (gen s) (trace s).
Definition set_active_chars (a : list nat) (s : State) : State :=
  mkState (characters s) (pending_chars s) a (group_by_row s)
          (character_final_color_map s) (gen s) (trace s).
Definition set_group_by_row (m : gmap Z (list nat)) (s : State) : State :=
  mkState (characters s) (pending_chars s) (active_chars s) m
          (character_final_color_map s) (gen s) (trace s).
Definition set_character_final_color_map (m : gmap nat Color) (s : State) : State :=
  mkState (characters s) (pending_chars s) (active_chars s) (group_by_row s)
          m (gen s) (trace s).
Definition set_gen (g : G) (s : State) : State :=
  mkState (characters s) (pending_chars s) (active_chars s) (group_by_row s)
          (character_final_color_map s) g (trace s).
Definition emit (e : Event) (s : State) : State :=
  mkState (characters s) (pending_chars s) (active_chars s) (group_by_row s)
          (character_final_color_map s) (gen s) (trace s ++ [e]).

(** [self.terminal.get_characters()], as references. *)
Definition get_characters (s : State) : list nat :=
  seq 0 (length (characters s)).

(** [character.input_coord.row] and [character.is_active] of the
    character a reference points to. *)
Definition row_of (s : State) (i : nat) : Z :=
  match characters s !! i with
  | Some c => row (input_coord c)
  | None => 0
  end.

Definition is_active_of (s : State) (i : nat) : bool :=
  match characters s !! i with
  | Some c => is_active c
  | None => false
  end.

Definition set_visible (v : bool) (c : EffectCharacter E) : EffectCharacter E :=
  mkChar (input_symbol c) (input_coord c) (symbol c) (current_coord c)
         (last_coord c) v (is_active c) (engine c).

(** [self.terminal.set_character_visibility(character, v)]; the call is
    an event when it makes the character visible. *)
Definition set_character_visibility (i : nat) (v : bool) (s : State) : State :=
  let s' := set_characters (alter (set_visible v) i (characters s)) s in
  if v then emit (EvReveal i) s' else s'.

(** [self.terminal.print()]. *)
Definition terminal_print (s : State) : State := emit EvPrint s.

(** **** [prepare_data] *)

(** Lines 109 to 112, for one character. *)
Definition final_color_of (i : nat) (s : State) : Result State :=
  if decide (top = 0) then Raise ZeroDivisionError
  else
    Ok (set_character_final_color_map
          (<[i := color_at_fraction (final_gradient_stops args)
                    (final_gradient_steps args) (row_of s i) top]>
             (character_final_color_map s)) s).

(** Lines 114 to 135, for one character. *)
Definition configure_character (i : nat) (s : State) : Result State :=
  '(raindrop_color, g1) ← choice (rain_colors args) (gen s);
  '(rain_symbol, g2) ← choice (rain_symbols args) g1;
  final ← match character_final_color_map s !! i with
          | Some c => Ok c
          | None => Raise KeyError
          end;
  let '(speed, g3) :=
    uniform (movement_speed args).1 (movement_speed args).2 g2 in
  Ok (set_pending_chars (pending_chars s ++ [i])
        (set_gen g3
           (set_characters
              (alter (rain_setup raindrop_color rain_symbol final top
                        speed (easing args)) i (characters s)) s))).

(** Lines 137 to 139, for one character. *)
Definition group_character (i : nat) (s : State) : State :=
  let r := row_of s i in
  let m := match group_by_row s !! r with
           | None => <[r := []]> (group_by_row s)
           | Some _ => group_by_row s
           end in
  set_group_by_row (alter (fun grp => grp ++ [i]) r m) s.

Definition prepare_data (s : State) : Result State :=
  s1 ← for_each final_color_of (get_characters s) s;
  s2 ← for_each configure_character (get_characters s1) s1;
  Ok (foldl (fun s i => group_character i s) s2
        (sorted (row_of s2) (pending_chars s2))).

(** **** [run] *)

(** The [while] condition. *)
Definition loop_condition (s : State) : bool :=
  bool_decide (group_by_row s <> ∅)
  || bool_decide (active_chars s <> [])
  || bool_decide (pending_chars s <> []).

(** Lines 147 and 148. *)
Definition stage_next_group (s : State) : Result State :=
  if bool_decide (pending_chars s = []) && bool_decide (group_by_row s <> ∅)
  then
    k ← py_min (keys (group_by_row s));
    '(grp, m) ← dict_pop k (group_by_row s);
    Ok (set_group_by_row m (set_pending_chars (pending_chars s ++ grp) s))
  else Ok s.

(** Lines 150 to 157: the body of [for _ in range(n)], [n] times or
    until [break]. *)
Fixpoint reveal_loop (n : nat) (s : State) : Result State :=
  match n with
  | O => Ok s
  | S n' =>
      if bool_decide (pending_chars s <> []) then
        '(idx, g) ← randint 0 (Z.of_nat (length (pending_chars s)) - 1) (gen s);
        '(next_character, rest) ← list_pop idx (pending_chars s);
        reveal_loop n'
          (set_active_chars (active_chars s ++ [next_character])
             (set_character_visibility next_character true
                (set_pending_chars rest (set_gen g s))))
      else Ok s
  end.

(** Lines 149 to 157. *)
Definition reveal (s : State) : Result State :=
  if bool_decide (pending_chars s <> []) then
    '(n, g) ← randint 1 3 (gen s);
    reveal_loop (Z.to_nat n) (set_gen g s)
  else Ok s.

(** [animate_chars]. *)
Definition tick_character (i : nat) (s : State) : State :=
  emit (EvTick i) (set_characters (alter tick i (characters s)) s).

Definition animate_chars (s : State) : State :=
  foldl (fun s i => tick_character i s) s (active_chars s).

(** Line 159. *)
Definition drop_inactive (s : State) : State :=
  set_active_chars (filter (fun i => is_active_of s i = true) (active_chars s)) s.

(** One turn of the [while] loop. *)
Definition frame (s : State) : Result State :=
  s1 ← stage_next_group s;
  s2 ← reveal s1;
  Ok (terminal_print (drop_inactive (animate_chars s2))).

(** The [while] loop.  [None]: the loop is still running after
    [fuel] turns. *)
Fixpoint run_loop (fuel : nat) (s : State) : option (Result State) :=
  if loop_condition s then
    match fuel with
    | O => None
    | S fuel' =>
        match frame s with
        | Ok s' => run_loop fuel' s'
        | Raise e => Some (Raise e)
        end
    end
  else Some (Ok s).

(** Lines 143 to 145. *)
Definition run_init (s : State) : Result State :=
  s1 ← prepare_data s;
  Ok (terminal_print (set_pending_chars [] s1)).

Definition run (fuel : nat) (s : State) : option (Result State) :=
  match run_init s with
  | Ok s' => run_loop fuel s'
  | Raise e => Some (Raise e)
  end.

(** A new [RainEffect] on a terminal, with the generator in state [g]. *)
Definition new_effect (cs : list (EffectCharacter E)) (g : G) : State :=
  mkState cs [] [] ∅ ∅ g [].

(** The states a running loop goes through. *)
Inductive reaches : State -> State -> Prop :=
| reaches_here s : reaches s s
| reaches_frame s s' s'' :
    loop_condition s = true -> frame s = Ok s' -> reaches s' s'' ->
    reaches s s''.

(** The characters a trace reveals and ticks, in order. *)
Definition revealed (t : list Event) : list nat :=
  omap (fun e => match e with EvReveal i => Some i | _ => None end) t.
Definition ticked (t : list Event) : list nat :=
  omap (fun e => match e with EvTick i => Some i | _ => None end) t.

(** The characters still in the staging map. *)
Definition staged (s : State) : list nat :=
  mjoin (map_to_list (group_by_row s)).*2.

(** Revealed, pending or staged: the population the scheduler works
    through. *)
Definition population (s : State) : list nat :=
  revealed (trace s) ++ pending_chars s ++ staged s.

(** What [reveal] and its loop do to a state: the characters [rs] leave
    the pending list, in this order, are made visible and join the
    active list. *)
Definition reveals (s : State) (rs : list nat) (s' : State) : Prop :=
  trace s' = trace s ++ (EvReveal <$> rs)
  /\ active_chars s' = active_chars s ++ rs
  /\ pending_chars s ≡ₚ rs ++ pending_chars s'
  /\ group_by_row s' = group_by_row s
  /\ character_final_color_map s' = character_final_color_map s
  /\ characters s'
     = foldl (fun cs i => alter (set_visible true) i cs) (characters s) rs.

(** What is left to do, given a bound [life] on the ticks a character
    stays active for: the groups still to stage, and for every character
    in the pending list, the staging map or the active list, one step
    more than its own bound. *)
Definition life_of (life : EffectCharacter E -> nat)
    (cs : list (EffectCharacter E)) (i : nat) : nat :=
  match cs !! i with
  | Some c => life c
  | None => 0%nat
  end.

Definition scheduled (s : State) : list nat :=
  pending_chars s ++ staged s ++ active_chars s.

Definition workload (life : EffectCharacter E -> nat) (s : State) : nat :=
  (size (group_by_row s)
   + sum_list_with (fun i => S (life_of life (characters s) i)) (scheduled s))%nat.

(** What a run shows from outside: the exception it raised, or the
    characters and the events it ended with. *)
Definition outcome (r : option (Result State))
    : option (Result (list (EffectCharacter E) * list Event)) :=
  match r with
  | Some (Ok s) => Some (Ok (characters s, trace s))
  | Some (Raise e) => Some (Raise e)
  | None => None
  end.
End Effect.

(** *** Runs that differ in the generator only *)

Section Similar.
Context {Color E G : Type}.

(** Two generator states are related when they yield the same draws,
    now and ever after. *)
Variable same_draws : G -> G -> Prop.

(** States that differ at most in the generator, whose states yield
    the same draws. *)
Definition sim (s1 s2 : State Color E G) : Prop :=
  characters s1 = characters s2
  /\ pending_chars s1 = pending_chars s2
  /\ active_chars s1 = active_chars s2
  /\ group_by_row s1 = group_by_row s2
  /\ character_final_color_map s1 = character_final_color_map s2
  /\ trace s1 = trace s2
  /\ same_draws (gen s1) (gen s2).

Definition sim_result (r1 r2 : Result (State Color E G)) : Prop :=
  match r1, r2 with
  | Ok a, Ok b => sim a b
  | Raise e1, Raise e2 => e1 = e2
  | _, _ => False
  end.

Definition sim_draw {A} (r1 r2 : Result (A * G)) : Prop :=
  match r1, r2 with
  | Ok (a1, g1), Ok (a2, g2) => a1 = a2 /\ same_draws g1 g2
  | Raise e1, Raise e2 => e1 = e2
  | _, _ => False
  end.
End Similar.
End Rain.

(** ** A small instance to run the definitions on *)

Module Demo.
Import Rain.

(** A generator that replays a tape of raw draws. *)
Definition Tape := list nat.

Definition tape_randbelow (n : nat) (g : Tape) : nat * Tape :=
  ((hd 0 g mod n)%nat, tl g).

(** Speeds in thousandths. *)
Definition tape_uniform (a b : Z) (g : Tape) : Z * Tape :=
  (a + (b - a) * Z.of_nat (hd 0 g mod 1000)%nat / 1000, tl g).

Global Instance tape_random : Random Tape Z.
Proof.
  refine {| randbelow := tape_randbelow; uniform := tape_uniform |}.
  intros n g Hn. simpl. apply Nat.mod_upper_bound. lia.
Defined.

(** A character whose engine counts the ticks it still needs. *)
Definition Char := EffectCharacter nat.

Definition demo_setup (raindrop final : string) (sym : string) (top speed : Z)
    (c : Char) : Char :=
  mkChar (input_symbol c) (input_coord c) sym
         (mkCoord (column (input_coord c)) top) (last_coord c)
         (is_visible c) true (engine c).

Definition demo_rain_setup (raindrop : string) (sym : string) (final : string)
    (top speed : Z) (ease : unit) (c : Char) : Char :=
  demo_setup raindrop final sym top speed c.

Definition demo_tick (c : Char) : Char :=
  mkChar (input_symbol c) (input_coord c) (symbol c) (current_coord c)
         (current_coord c) (is_visible c)
         (bool_decide (pred (engine c) <> 0%nat)) (pred (engine c)).

Definition demo_color_at (stops : list string) (steps : list Z) (r t : Z) : string :=
  default "ffffff" (stops !! Z.to_nat (r * Z.of_nat (length stops - 1) / t)).

Definition demo_args : RainEffectArgs string Z unit :=
  mkArgs ["00315C"; "004C8F"] "ffffff" (100, 200) ["o"; "."]
         ["8A008A"; "00D1FF"; "FFFFFF"] [12] tt.

Definition demo_char (sym : string) (col r : Z) (ticks : nat) : Char :=
  mkChar sym (mkCoord col r) sym (mkCoord col r) (mkCoord col r) false false ticks.

(** The input
<<
ab
c
>>
    with rows counted from the bottom. *)
Definition demo_characters : list Char :=
  [ demo_char "a" 1 2 2; demo_char "b" 2 2 1; demo_char "c" 1 1 3 ].

Definition demo_top : Z := 2.

Definition demo_run (fuel : nat) (g : Tape) : option (Result (State string nat Tape)) :=
  run demo_color_at demo_rain_setup demo_tick demo_args demo_top fuel
      (new_effect demo_characters g).

Definition demo_trace (fuel : nat) (g : Tape) : list Event :=
  match demo_run fuel g with
  | Some (Ok s) => trace s
  | _ => []
  end.

(** The state when the loop starts, and after [n] frames. *)
Definition demo_init (g : Tape) : State string nat Tape :=
  match run_init demo_color_at demo_rain_setup demo_args demo_top
          (new_effect demo_characters g) with
  | Ok s => s
  | Raise _ => new_effect demo_characters g
  end.

Definition demo_frame (s : State string nat Tape) : State string nat Tape :=
  match frame demo_tick s with
  | Ok s' => s'
  | Raise _ => s
  end.

Definition demo_after (n : nat) (g : Tape) : State string nat Tape :=
  Nat.iter n demo_frame (demo_init g).

(** A tape on which the second character of the top row is revealed
    before the first. *)
Definition demo_tape : Tape := [0; 0; 0; 0; 0; 0; 0; 0; 0; 0; 0; 0; 1]%nat.

(** Two tapes replay the same draws when they agree at every position,
    a missing entry counting as 0. *)
Definition tape_same_draws (g1 g2 : Tape) : Prop :=
  forall n, nth n g1 0%nat = nth n g2 0%nat.

(** A visible character that has moved down from row 4 to row 3. *)
Definition demo_moved : Char :=
  mkChar "a" (mkCoord 1 2) "o" (mkCoord 1 3) (mkCoord 1 4) true true 2%nat.

(** A command line is accepted when it names an effect. *)
Definition demo_parse_args (argv : list string) : option string :=
  match argv with
  | [] => None
  | name :: _ => Some name
  end.
End Demo.


(** ** The cells of the screen *)

Module Cells.
Import TerminalOperations.

(** The address [move_and_print] sends for a coordinate. *)
Definition cell_of (c : Coord) : Z * Z := (row c, column c).

(** The screen as the text last written at each address; a later write
    to an address replaces an earlier one. *)
Definition paint (ws : list CellWrite) (screen : gmap (Z * Z) string)
    : gmap (Z * Z) string :=
  foldl (fun m w => <[(cw_row w, cw_column w) := cw_text w]> m) screen ws.

End Cells.

(** ** The defaults of [RainEffectArgs] *)

Module RainDefaults.
Import Rain.

Section Defaults.
(** The floats [0.1] and [0.2] and the function [easing.in_quart]. *)
Context {Float Easing : Type}.
Variable speed_low speed_high : Float.
Variable in_quart : Easing.

Definition default_args : RainEffectArgs string Float Easing :=
  mkArgs
    ["00315C"; "004C8F"; "0075DB"; "3F91D9"; "78B9F2"; "9AC8F5"; "B8D8F8"; "E3EFFC"]
    "ffffff"
    (speed_low, speed_high)
    ["o"; "."; ","; "*"; "|"]
    ["8A008A"; "00D1FF"; "FFFFFF"]
    [12]
    in_quart.
End Defaults.
End RainDefaults.

(** ** What the scheduler keeps true *)

Module Schedule.
Import Rain.

Section Invariants.
Context {Color E G : Type}.
Implicit Types s : State Color E G.

(** Every tick of a character comes after its reveal. *)
Definition ticks_after_reveal (t : list Event) : Prop :=
  forall n i, t !! n = Some (EvTick i) ->
    exists m, (m < n)%nat /\ t !! m = Some (EvReveal i).

(** The active characters were revealed, and stand in the order of
    their reveals. *)
Definition active_revealed s : Prop :=
  active_chars s `sublist_of` revealed (trace s)
  /\ ticks_after_reveal (trace s).

(** No group of the staging map is empty. *)
Definition groups_nonempty s : Prop :=
  forall r grp, group_by_row s !! r = Some grp -> grp <> [].

(** With [key] the row under which a character was staged: the groups
    hold the characters of their row; the reveals went row by row,
    lowest first; the pending characters are of one row, not below a
    revealed one; and the staged rows lie above. *)
Definition bottom_up (key : nat -> Z) s : Prop :=
  (forall r grp i, group_by_row s !! r = Some grp -> i ∈ grp -> key i = r)
  /\ StronglySorted Z.le (key <$> revealed (trace s))
  /\ (forall i j, i ∈ revealed (trace s) -> j ∈ pending_chars s -> key i <= key j)
  /\ (forall i j, i ∈ pending_chars s -> j ∈ pending_chars s -> key i = key j)
  /\ (forall i r, i ∈ revealed (trace s) ++ pending_chars s ->
        is_Some (group_by_row s !! r) -> key i < r).
End Invariants.
End Schedule.

(** ** More of the small instance *)

Module DemoMore.
Import Rain Demo.

(** The demo effect after [prepare_data]. *)
Definition demo_prepared : State string nat Tape :=
  match prepare_data demo_color_at demo_rain_setup demo_args demo_top
          (new_effect demo_characters []) with
  | Ok s => s
  | Raise _ => new_effect demo_characters []
  end.

(** A visible character that has not moved since it was rendered. *)
Definition demo_still : Char :=
  mkChar "a" (mkCoord 1 2) "a" (mkCoord 1 2) (mkCoord 1 2) true false 0%nat.
End DemoMore.

(** * Properties *)

(** ** The terminal operations *)

Section TerminalOperationsFacts.
Import TerminalOperations.
Context {E Cursor : Type}.
Variable cursor_up : Z -> Cursor -> Cursor.
Variable cursor_to_column : Z -> Cursor -> Cursor.
Variable cursor_after_text : string -> Cursor -> Cursor.

Local Abbreviation exec := (exec_ops cursor_up cursor_to_column cursor_after_text).

Lemma exec_ops_app ops1 ops2 (t : Screen) :
  exec (ops1 ++ ops2) t = exec ops2 (exec ops1 t).
Proof. unfold exec_ops. apply foldl_app. Qed.

(** One [move_and_print] returns the cursor to where it was, whatever
    the codes and the text in between do to it. *)
Lemma move_and_print_cursor sym r c (t : Screen) :
  cursor (exec (move_and_print sym r c) t) = cursor t.
Proof. reflexivity. Qed.

Lemma move_and_print_bracketed sym r c ops :
  bracketed false (move_and_print sym r c ++ ops) = bracketed false ops.
Proof. reflexivity. Qed.

(** C10: [print_character] leaves the cursor where it found it, for
    every character and both values of [clear_last], on every terminal
    that implements DEC save and restore; and every text it writes (the
    symbol, and the blank that clears) lies between a save-cursor code
    and the restore-cursor code that follows it. *)
Theorem print_character_keeps_cursor (character : EffectCharacter E)
    (clear_last : bool) (t : Screen) :
  cursor (exec (print_character character clear_last) t) = cursor t
  /\ bracketed false (print_character character clear_last) = true.
Proof.
  unfold print_character. split.
  - rewrite exec_ops_app. destruct clear_last.
    + now rewrite !move_and_print_cursor.
    + apply move_and_print_cursor.
  - rewrite move_and_print_bracketed. now destruct clear_last.
Qed.
End TerminalOperationsFacts.

Section InputFacts.
Import TerminalOperations Main.
Context {Args : Type}.
Variable parse_args : list string -> option Args.

(** C9: when stdin is not a terminal [get_piped_input] returns all of
    it and leaves nothing to read; when stdin is a terminal it returns
    the empty string and stdin is not read; so [main] on a terminal
    does what it does on an empty pipe. *)
Theorem get_piped_input_tty_or_pipe (stdin : Stdin) :
  (isatty stdin = false ->
     get_piped_input stdin = (unread stdin, mkStdin false ""))
  /\ (isatty stdin = true ->
        get_piped_input stdin = ("", stdin)
        /\ forall argv,
             actions (main parse_args argv stdin)
               = actions (main parse_args argv (mkStdin false ""))
             /\ exit (main parse_args argv stdin)
                  = exit (main parse_args argv (mkStdin false ""))).
Proof.
  destruct stdin as [tty data]; simpl. split; intros ->.
  - reflexivity.
  - split; [reflexivity|]. intros argv. unfold main, get_piped_input; simpl.
    now destruct (parse_args argv).
Qed.

(** C7: on empty piped input [main] neither constructs nor runs the
    effect; once the command line is parsed it prints "NO INPUT." and
    returns.  The effect is constructed and run only on non-empty
    input. *)
Theorem main_runs_effect_only_on_input (argv : list string) (stdin : Stdin) :
  let input_data := (get_piped_input stdin).1 in
  let out := main parse_args argv stdin in
  (input_data = "" ->
     filter (fun a => invokes_engine a = true) (actions out) = []
     /\ forall args, parse_args argv = Some args ->
          actions out = [Print "NO INPUT."] /\ exit out = Returned)
  /\ (forall a, a ∈ actions out -> invokes_engine a = true ->
        input_data <> ""
        /\ exists args, parse_args argv = Some args
             /\ actions out = [Construct input_data args; Run]).
Proof.
  simpl. unfold main.
  destruct (parse_args argv) as [args|] eqn:Hparse;
    destruct (get_piped_input stdin) as [input_data stdin'] eqn:Hin; simpl.
  - case_bool_decide as Hempty; simpl.
    + split.
      * intros _. split; [reflexivity|]. now intros ? [= <-].
      * intros a Ha. apply list_elem_of_singleton in Ha as ->. discriminate.
    + split; [intros ?; contradiction|].
      intros a _ _. split; [assumption|]. now exists args.
  - split.
    + intros _. split; [reflexivity|]. discriminate.
    + intros a Ha. now apply elem_of_nil in Ha.
Qed.
End InputFacts.

(** ** The rendering pass *)

Section CanvasFacts.
Import TerminalOperations Canvas.
Context {E : Type}.

Lemma cell_writes_print_character_clear (c : EffectCharacter E) :
  cell_writes (print_character c true)
  = [ mkCellWrite (symbol c) (row (current_coord c)) (column (current_coord c));
      mkCellWrite " " (row (last_coord c)) (column (last_coord c)) ].
Proof. reflexivity. Qed.

(** C2: in one rendering pass, a visible character whose
    [current_coord] differs from the position rendered before, which is
    its [last_coord], gets one entry of output; that entry is
    [print_character] with [clear_last], and the cells it addresses are
    its symbol at [current_coord] and a blank at [last_coord], once
    each, and no other. *)
Theorem render_pass_moved_character (characters : list (EffectCharacter E))
    (last_rendered : gmap nat Rendered) (i : nat) (c : EffectCharacter E)
    (p : Rendered) :
  characters !! i = Some c ->
  is_visible c = true ->
  last_rendered !! i = Some p ->
  last_coord c = r_coord p ->
  current_coord c <> last_coord c ->
  exists ops,
    render_pass characters last_rendered !! i = Some (i, ops)
    /\ (forall j ops', render_pass characters last_rendered !! j = Some (i, ops') ->
          j = i)
    /\ ops = print_character c true
    /\ cell_writes ops
       = [ mkCellWrite (symbol c) (row (current_coord c)) (column (current_coord c));
           mkCellWrite " " (row (last_coord c)) (column (last_coord c)) ].
Proof.
  intros Hc Hvis Hprev Hlast Hmoved.
  exists (print_character c true). unfold render_pass. repeat split.
  - rewrite list_lookup_imap, Hc. simpl. unfold render_character.
    rewrite Hvis, Hprev. rewrite <- Hlast.
    now destruct (decide (current_coord c = last_coord c)).
  - intros j ops'. rewrite list_lookup_imap.
    destruct (characters !! j); simpl; congruence.
Qed.
End CanvasFacts.
(** ** The scheduler of the rain effect *)

Section RainFacts.
Import Rain.
Context {Color Float Easing E G : Type} `{!Random G Float}.
Variable color_at_fraction : list Color -> list Z -> Z -> Z -> Color.
Variable rain_setup :
  Color -> string -> Color -> Z -> Float -> Easing ->
  EffectCharacter E -> EffectCharacter E.
Variable tick : EffectCharacter E -> EffectCharacter E.
Variable args : RainEffectArgs Color Float Easing.
Variable top : Z.

Local Abbreviation State := (State Color E G).
Implicit Types s : State.

(** *** Python containers and random calls *)

Lemma foldl_min_le (l : list Z) (x : Z) :
  foldl Z.min x l <= x /\ forall y, y ∈ l -> foldl Z.min x l <= y.
Proof.
  revert x. induction l as [|a l IH]; intros x; simpl.
  - split; [lia|]. intros y Hy. inversion Hy.
  - destruct (IH (Z.min x a)) as [H1 H2]. split; [lia|].
    intros y Hy. apply elem_of_cons in Hy as [->|Hy]; [lia|auto].
Qed.

Lemma foldl_min_elem (l : list Z) (x : Z) : foldl Z.min x l ∈ x :: l.
Proof.
  revert x. induction l as [|a l IH]; intros x; simpl.
  - apply elem_of_cons. now left.
  - specialize (IH (Z.min x a)). rewrite !elem_of_cons in *.
    destruct IH as [Heq|Hin]; [|auto]. rewrite Heq.
    destruct (Z.min_spec x a) as [[_ ->]|[_ ->]]; auto.
Qed.

Lemma py_min_spec (l : list Z) (k : Z) :
  py_min l = Ok k -> k ∈ l /\ forall y, y ∈ l -> k <= y.
Proof.
  destruct l as [|x l]; simpl; [discriminate|]. intros [= <-]. split.
  - apply foldl_min_elem.
  - intros y Hy. destruct (foldl_min_le l x) as [H1 H2].
    apply elem_of_cons in Hy as [->|Hy]; auto.
Qed.

Lemma py_min_nonempty (l : list Z) : l <> [] -> exists k, py_min l = Ok k.
Proof. destruct l; [congruence|]. intros _. simpl. eauto. Qed.

Lemma elem_of_keys {V} (d : gmap Z V) (k : Z) : k ∈ keys d <-> is_Some (d !! k).
Proof.
  unfold keys. rewrite list_elem_of_fmap. split.
  - intros [[k' v] [-> Hin]]. apply elem_of_map_to_list in Hin. now exists v.
  - intros [v Hv]. exists (k, v). split; [reflexivity|].
    now apply elem_of_map_to_list.
Qed.

Lemma keys_nonempty {V} (d : gmap Z V) : d <> ∅ -> keys d <> [].
Proof.
  intros Hne Hk. apply Hne, map_to_list_empty_iff.
  unfold keys in Hk. now apply fmap_nil_inv in Hk.
Qed.

Lemma randint_ok (a b : Z) (g : G) :
  a <= b ->
  exists k g', randint a b g = Ok (k, g') /\ a <= k <= b.
Proof.
  intros Hab. unfold randint. destruct (decide (a <= b)); [|lia].
  pose proof (randbelow_lt (Z.to_nat (b - a + 1)) g) as Hlt.
  destruct (randbelow (Z.to_nat (b - a + 1)) g) as [k g'] eqn:Hk. simpl in Hlt.
  exists (a + Z.of_nat k), g'. split; [reflexivity|]. lia.
Qed.

Lemma list_pop_ok {A} (i : Z) (l : list A) :
  0 <= i < Z.of_nat (length l) ->
  exists x, l !! Z.to_nat i = Some x
            /\ list_pop i l = Ok (x, delete (Z.to_nat i) l).
Proof.
  intros Hi. unfold list_pop.
  destruct (decide (i < 0)); [lia|]. destruct (decide _); [|lia].
  destruct (lookup_lt_is_Some_2 l (Z.to_nat i)) as [x Hx]; [lia|].
  exists x. now rewrite Hx.
Qed.

Lemma list_pop_Permutation {A} (i : Z) (l rest : list A) (x : A) :
  list_pop i l = Ok (x, rest) -> l ≡ₚ x :: rest.
Proof.
  unfold list_pop. destruct (decide _); [|discriminate].
  destruct (l !! _) eqn:Hl; [|discriminate]. intros [= <- <-].
  now apply delete_Permutation.
Qed.

(** *** The phases of a frame *)

Lemma bind_Ok {A B} (m : Result A) (f : A -> Result B) (b : B) :
  (m ≫= f) = Ok b <-> exists a, m = Ok a /\ f a = Ok b.
Proof.
  destruct m as [a|e]; simpl; split.
  - intros H. now exists a.
  - now intros [a' [[= <-] H]].
  - discriminate.
  - now intros [a' [[=] _]].
Qed.

Lemma loop_condition_false s :
  loop_condition s = false
  <-> group_by_row s = ∅ /\ pending_chars s = [] /\ active_chars s = [].
Proof.
  unfold loop_condition. rewrite !orb_false_iff, !bool_decide_eq_false.
  split.
  - intros [[Hg Ha] Hp]. repeat split.
    + now destruct (decide (group_by_row s = ∅)).
    + now destruct (decide (pending_chars s = [])).
    + now destruct (decide (active_chars s = [])).
  - intros (-> & -> & ->). auto.
Qed.

(** Staging: nothing happens unless the pending list is empty and a
    group is left; then the group of the least row is moved. *)
Lemma stage_next_group_pop s :
  pending_chars s = [] -> group_by_row s <> ∅ ->
  exists k grp,
    group_by_row s !! k = Some grp
    /\ (forall k', is_Some (group_by_row s !! k') -> k <= k')
    /\ stage_next_group s
       = Ok (set_group_by_row (delete k (group_by_row s))
               (set_pending_chars grp s)).
Proof.
  intros Hp Hg. unfold stage_next_group.
  rewrite (bool_decide_eq_true_2 _ Hp), (bool_decide_eq_true_2 _ Hg). simpl.
  destruct (py_min_nonempty (keys (group_by_row s))) as [k Hk];
    [now apply keys_nonempty|].
  rewrite Hk. simpl. apply py_min_spec in Hk as [Hin Hmin].
  apply elem_of_keys in Hin as [grp Hgrp].
  exists k, grp. repeat split; [assumption| |].
  - intros k' Hk'. apply Hmin. now apply elem_of_keys.
  - unfold dict_pop. rewrite Hgrp. simpl. now rewrite Hp.
Qed.

Lemma stage_next_group_skip s :
  pending_chars s <> [] \/ group_by_row s = ∅ -> stage_next_group s = Ok s.
Proof.
  intros H. unfold stage_next_group.
  destruct H as [H|H].
  - now rewrite (bool_decide_eq_false_2 _ H).
  - rewrite (bool_decide_eq_false_2 (group_by_row s <> ∅)); [|tauto].
    now rewrite andb_false_r.
Qed.

Lemma stage_next_group_total s : exists s', stage_next_group s = Ok s'.
Proof.
  destruct (decide (pending_chars s = [])) as [Hp|Hp];
    [destruct (decide (group_by_row s = ∅)) as [Hg|Hg]|].
  - eexists. apply stage_next_group_skip. now right.
  - destruct (stage_next_group_pop s Hp Hg) as (k & grp & _ & _ & ->). eauto.
  - eexists. apply stage_next_group_skip. now left.
Qed.

Lemma reveals_nil s : reveals s [] s.
Proof. unfold reveals. simpl. now rewrite !app_nil_r. Qed.

Lemma reveals_set_gen s g : reveals s [] (set_gen g s).
Proof. unfold reveals. simpl. now rewrite !app_nil_r. Qed.

Lemma reveals_trans s1 rs1 s2 rs2 s3 :
  reveals s1 rs1 s2 -> reveals s2 rs2 s3 -> reveals s1 (rs1 ++ rs2) s3.
Proof.
  intros (Ht1 & Ha1 & Hp1 & Hg1 & Hc1 & Hs1) (Ht2 & Ha2 & Hp2 & Hg2 & Hc2 & Hs2).
  unfold reveals. rewrite Ht2, Ht1, Ha2, Ha1, Hg2, Hg1, Hc2, Hc1, Hs2, Hs1.
  rewrite fmap_app, foldl_app, <- !app_assoc. repeat split; try reflexivity.
  now rewrite Hp1, Hp2.
Qed.

Lemma reveal_loop_spec (n : nat) s :
  exists rs s',
    reveal_loop n s = Ok s' /\ reveals s rs s'
    /\ (length rs <= n)%nat
    /\ ((0 < n)%nat -> pending_chars s <> [] -> rs <> []).
Proof.
  revert s. induction n as [|n IH]; intros s.
  - exists [], s. simpl. split; [reflexivity|]. split; [apply reveals_nil|].
    split; [lia|]. lia.
  - simpl. case_bool_decide as Hp.
    + destruct (randint_ok 0 (Z.of_nat (length (pending_chars s)) - 1) (gen s))
        as (idx & g & -> & Hidx).
      { destruct (pending_chars s); [congruence|]. simpl. lia. }
      simpl.
      destruct (list_pop_ok idx (pending_chars s)) as (x & Hx & Hpop); [lia|].
      rewrite Hpop. simpl.
      match goal with |- context [reveal_loop n ?s1] =>
        destruct (IH s1) as (rs & s' & Hloop & Hrev & Hlen & _);
        assert (Hone : reveals s [x] s1)
      end.
      { unfold reveals. simpl. repeat split; try reflexivity.
        now apply delete_Permutation. }
      exists (x :: rs), s'. split; [assumption|].
      split; [apply (reveals_trans _ [x] _ rs _ Hone Hrev)|].
      split; [simpl; lia|]. discriminate.
    + exists [], s. split; [reflexivity|]. split; [apply reveals_nil|].
      split; [simpl; lia|]. intros _ ?. contradiction.
Qed.

Lemma reveal_spec s :
  exists rs s',
    reveal s = Ok s' /\ reveals s rs s'
    /\ (pending_chars s <> [] -> rs <> []).
Proof.
  unfold reveal. case_bool_decide as Hp.
  - destruct (randint_ok 1 3 (gen s)) as (n & g & -> & Hn); [lia|]. simpl.
    destruct (reveal_loop_spec (Z.to_nat n) (set_gen g s))
      as (rs & s' & Hloop & Hrev & _ & Hne).
    exists rs, s'. split; [assumption|]. split.
    + apply (reveals_trans s [] (set_gen g s) rs s'); [apply reveals_set_gen|assumption].
    + intros _. apply Hne; [lia|assumption].
  - exists [], s. split; [reflexivity|]. split; [apply reveals_nil|]. tauto.
Qed.

(** Ticking: the active characters, each once, in the order of the list. *)
Lemma foldl_tick_character (l : list nat) s :
  let s' := foldl (fun s i => tick_character tick i s) s l in
  trace s' = trace s ++ (EvTick <$> l)
  /\ characters s' = foldl (fun cs i => alter tick i cs) (characters s) l
  /\ pending_chars s' = pending_chars s
  /\ active_chars s' = active_chars s
  /\ group_by_row s' = group_by_row s
  /\ character_final_color_map s' = character_final_color_map s
  /\ gen s' = gen s.
Proof.
  revert s. induction l as [|i l IH]; intros s; simpl.
  - now rewrite app_nil_r.
  - destruct (IH (tick_character tick i s)) as (-> & -> & -> & -> & -> & -> & ->).
    simpl. now rewrite <- app_assoc.
Qed.

Lemma animate_chars_spec s :
  let s' := animate_chars tick s in
  trace s' = trace s ++ (EvTick <$> active_chars s)
  /\ characters s'
     = foldl (fun cs i => alter tick i cs) (characters s) (active_chars s)
  /\ pending_chars s' = pending_chars s
  /\ active_chars s' = active_chars s
  /\ group_by_row s' = group_by_row s
  /\ character_final_color_map s' = character_final_color_map s
  /\ gen s' = gen s.
Proof. apply foldl_tick_character. Qed.

(** A frame always completes: no call in it raises. *)
Lemma frame_total s : exists s', frame tick s = Ok s'.
Proof.
  unfold frame. destruct (stage_next_group_total s) as [s1 ->]. simpl.
  destruct (reveal_spec s1) as (rs & s2 & -> & _). simpl. eauto.
Qed.

Lemma frame_inv s s' :
  frame tick s = Ok s' ->
  exists s1 s2,
    stage_next_group s = Ok s1 /\ reveal s1 = Ok s2
    /\ s' = terminal_print (drop_inactive (animate_chars tick s2)).
Proof.
  unfold frame. intros H. apply bind_Ok in H as (s1 & Hs1 & H).
  apply bind_Ok in H as (s2 & Hs2 & [= <-]). eauto.
Qed.

(** C5: at the start of a frame in which the pending list is empty and
    the staging map is not, the scheduler moves the group of the lowest
    row key, and only it, from the staging map to the pending list and
    removes that key; the frame goes on from the state so obtained. *)
Theorem stage_next_group_lowest_row s :
  pending_chars s = [] ->
  group_by_row s <> ∅ ->
  exists k grp,
    group_by_row s !! k = Some grp
    /\ (forall k', is_Some (group_by_row s !! k') -> k <= k')
    /\ stage_next_group s
       = Ok (set_group_by_row (delete k (group_by_row s))
               (set_pending_chars grp s))
    /\ frame tick s
       = (s2 ← reveal (set_group_by_row (delete k (group_by_row s))
                         (set_pending_chars grp s));
          Ok (terminal_print (drop_inactive (animate_chars tick s2)))).
Proof.
  intros Hp Hg.
  destruct (stage_next_group_pop s Hp Hg) as (k & grp & Hk & Hmin & Hstage).
  exists k, grp. repeat split; try assumption.
  unfold frame. now rewrite Hstage.
Qed.

Lemma foldl_alter_lookup (f : EffectCharacter E -> EffectCharacter E)
    (l : list nat) (cs : list (EffectCharacter E)) (i : nat) :
  NoDup l ->
  foldl (fun cs i => alter f i cs) cs l !! i
  = if decide (i ∈ l) then f <$> cs !! i else cs !! i.
Proof.
  revert cs. induction l as [|j l IH]; intros cs Hnd; simpl.
  - reflexivity.
  - apply NoDup_cons in Hnd as [Hj Hnd]. rewrite IH by assumption.
    destruct (decide (i = j)) as [->|Hij].
    + rewrite decide_False by assumption.
      rewrite decide_True by (apply elem_of_cons; now left).
      apply list_lookup_alter_eq.
    + rewrite list_lookup_alter_ne by congruence.
      destruct (decide (i ∈ l)) as [Hil|Hil].
      * rewrite decide_True by (apply elem_of_cons; now right). reflexivity.
      * rewrite decide_False; [reflexivity|].
        intros [?|?]%elem_of_cons; contradiction.
Qed.

Lemma ticked_app t1 t2 : ticked (t1 ++ t2) = ticked t1 ++ ticked t2.
Proof. apply omap_app. Qed.

Lemma revealed_app t1 t2 : revealed (t1 ++ t2) = revealed t1 ++ revealed t2.
Proof. apply omap_app. Qed.

Lemma ticked_EvTick l : ticked (EvTick <$> l) = l.
Proof. unfold ticked, revealed. induction l; csimpl; congruence. Qed.

Lemma ticked_EvReveal l : ticked (EvReveal <$> l) = [].
Proof. unfold ticked, revealed. induction l; csimpl; congruence. Qed.

Lemma revealed_EvReveal l : revealed (EvReveal <$> l) = l.
Proof. unfold ticked, revealed. induction l; csimpl; congruence. Qed.

Lemma revealed_EvTick l : revealed (EvTick <$> l) = [].
Proof. unfold ticked, revealed. induction l; csimpl; congruence. Qed.

(** The shape of a frame: staging, then the reveals [rs], then one tick
    of every active character, then the filter, then the print. *)
Lemma frame_spec s s' :
  frame tick s = Ok s' ->
  exists s1 rs s2,
    stage_next_group s = Ok s1 /\ reveal s1 = Ok s2 /\ reveals s1 rs s2
    /\ (pending_chars s1 <> [] -> rs <> [])
    /\ trace s1 = trace s
    /\ active_chars s1 = active_chars s
    /\ characters s1 = characters s
    /\ trace s'
       = trace s ++ (EvReveal <$> rs) ++ (EvTick <$> active_chars s2) ++ [EvPrint]
    /\ characters s'
       = foldl (fun cs i => alter tick i cs) (characters s2) (active_chars s2)
    /\ active_chars s'
       = filter (fun i => is_active_of s' i = true) (active_chars s2)
    /\ pending_chars s' = pending_chars s2
    /\ group_by_row s' = group_by_row s1.
Proof.
  intros Hf. apply frame_inv in Hf as (s1 & s2 & Hs1 & Hs2 & ->).
  destruct (reveal_spec s1) as (rs & s2' & Hs2' & Hrev & Hne).
  rewrite Hs2 in Hs2'. injection Hs2' as <-.
  exists s1, rs, s2. split; [assumption|]. split; [assumption|].
  split; [assumption|]. split; [assumption|].
  assert (trace s1 = trace s /\ active_chars s1 = active_chars s
          /\ characters s1 = characters s) as (Ht & Ha & Hc).
  { unfold stage_next_group in Hs1.
    destruct (_ && _).
    - apply bind_Ok in Hs1 as (k & _ & Hs1).
      apply bind_Ok in Hs1 as ([grp m] & _ & [= <-]). auto.
    - injection Hs1 as <-. auto. }
  repeat (split; [assumption|]).
  destruct (animate_chars_spec s2) as (Ht2 & Hc2 & Hp2 & Ha2 & Hg2 & _).
  destruct Hrev as (Htr & _ & _ & Hgr & _).
  simpl. rewrite Ht2, Hc2, Hp2, Ha2, Hg2, Htr, Ht, Hgr.
  rewrite <- !app_assoc. repeat split; reflexivity.
Qed.

(** C4: at the end of a frame the active list is the list that was
    ticked, in the same order, without the characters whose [is_active]
    is false after the tick; and every character of that list was ticked
    once in the frame. *)
Theorem frame_drops_inactive_characters s s' :
  frame tick s = Ok s' ->
  exists s1 s2,
    stage_next_group s = Ok s1 /\ reveal s1 = Ok s2
    /\ ticked (trace s') = ticked (trace s) ++ active_chars s2
    /\ active_chars s'
       = filter (fun i => is_active_of s' i = true) (active_chars s2)
    /\ (forall i, i ∈ active_chars s'
                  <-> i ∈ active_chars s2 /\ is_active_of s' i = true)
    /\ (NoDup (active_chars s2) ->
        forall i, characters s' !! i
                  = if decide (i ∈ active_chars s2)
                    then tick <$> characters s2 !! i
                    else characters s2 !! i).
Proof.
  intros Hf.
  destruct (frame_spec s s' Hf)
    as (s1 & rs & s2 & Hs1 & Hs2 & _ & _ & _ & _ & _ & Ht & Hc & Ha & _).
  exists s1, s2. repeat (split; [assumption|]). split; [|split; [assumption|split]].
  - rewrite Ht, !ticked_app, ticked_EvReveal, ticked_EvTick. simpl.
    now rewrite app_nil_r.
  - intros i. rewrite Ha, list_elem_of_filter. tauto.
  - intros Hnd i. rewrite Hc. now apply foldl_alter_lookup.
Qed.

(** C6: in a turn of the loop every character of the active list (the
    characters that were active when the turn began and the ones just
    revealed) is ticked before the terminal is printed.  The events of
    the turn are the reveals, then one tick for each of these
    characters, in the order of the list, then the print, which is the
    last event of the turn; and the characters the print finds are the
    ticked ones. *)
Theorem frame_ticks_before_print s s' :
  frame tick s = Ok s' ->
  exists rs : list nat,
    trace s'
    = trace s ++ (EvReveal <$> rs) ++ (EvTick <$> (active_chars s ++ rs))
        ++ [EvPrint]
    /\ (forall k i, (active_chars s ++ rs) !! k = Some i ->
          trace s' !! (length (trace s) + length rs + k)%nat = Some (EvTick i))
    /\ trace s' !! (length (trace s) + length rs
                      + length (active_chars s ++ rs))%nat = Some EvPrint
    /\ length (trace s')
       = S (length (trace s) + length rs + length (active_chars s ++ rs))
    /\ characters s'
       = foldl (fun cs i => alter tick i cs)
           (foldl (fun cs i => alter (set_visible true) i cs) (characters s) rs)
           (active_chars s ++ rs)
    /\ forall (n m : nat) (i : nat),
         (trace s' !! n = Some (EvTick i) -> (length (trace s) <= n)%nat ->
          trace s' !! m = Some EvPrint -> (length (trace s) <= m)%nat ->
          (n < m)%nat).
Proof.
  intros Hf.
  destruct (frame_spec s s' Hf)
    as (s1 & rs & s2 & _ & _ & Hrev & _ & _ & Ha1 & Hc1 & Ht & Hc & _).
  destruct Hrev as (_ & Ha2 & _ & _ & _ & Hc2).
  rewrite Ha2, Ha1 in Ht, Hc. rewrite Hc2, Hc1 in Hc.
  exists rs. split; [assumption|]. split; [|split; [|split; [|split]]].
  - intros k i Hk. rewrite Ht, <- Nat.add_assoc, lookup_app_r by lia.
    replace (length (trace s) + (length rs + k) - length (trace s))%nat
      with (length rs + k)%nat by lia.
    rewrite lookup_app_r by (rewrite length_fmap; lia).
    rewrite length_fmap.
    replace (length rs + k - length rs)%nat with k by lia.
    apply lookup_app_l_Some. now rewrite list_lookup_fmap, Hk.
  - rewrite Ht, <- Nat.add_assoc, lookup_app_r by lia.
    replace (length (trace s) + (length rs + length (active_chars s ++ rs)) - length (trace s))%nat
      with (length rs + length (active_chars s ++ rs))%nat by lia.
    rewrite lookup_app_r by (rewrite length_fmap; lia).
    rewrite length_fmap.
    replace (length rs + length (active_chars s ++ rs) - length rs)%nat
      with (length (active_chars s ++ rs)) by lia.
    rewrite lookup_app_r by (rewrite length_fmap; lia).
    now rewrite length_fmap, Nat.sub_diag.
  - rewrite Ht, !length_app, !length_fmap, !length_app. simpl. lia.
  - assumption.
  - intros n m i Hn Hln Hm Hlm. rewrite Ht in Hn, Hm.
    rewrite lookup_app_r in Hn, Hm by assumption.
    set (a := (n - length (trace s))%nat) in *.
    set (b := (m - length (trace s))%nat) in *.
    assert (a < b)%nat; [|lia].
    rewrite app_assoc in Hn, Hm.
    set (pre := (EvReveal <$> rs) ++ (EvTick <$> (active_chars s ++ rs))) in *.
    destruct (decide (b < length pre)%nat) as [Hb|Hb].
    + rewrite lookup_app_l in Hm by assumption. exfalso.
      apply list_elem_of_lookup_2 in Hm. unfold pre in Hm.
      apply elem_of_app in Hm as [Hm|Hm];
        apply list_elem_of_fmap in Hm as (? & [=] & _).
    + destruct (decide (a < length pre)%nat) as [Ha|Ha]; [lia|].
      rewrite lookup_app_r in Hn by lia.
      destruct (a - length pre)%nat; simpl in Hn; [discriminate|].
      now rewrite lookup_nil in Hn.
Qed.

Lemma run_loop_reaches (fuel : nat) s s' :
  run_loop tick fuel s = Some (Ok s') ->
  reaches tick s s' /\ loop_condition s' = false.
Proof.
  revert s. induction fuel as [|fuel IH]; intros s; simpl.
  - destruct (loop_condition s) eqn:Hc; [discriminate|].
    intros [= <-]. split; [constructor|assumption].
  - destruct (loop_condition s) eqn:Hc.
    + destruct (frame tick s) as [s1|e] eqn:Hf; [|discriminate].
      intros H. apply IH in H as [Hr Hc']. split; [|assumption].
      now apply (reaches_frame tick s s1 s').
    + intros [= <-]. split; [constructor|assumption].
Qed.

(** C1: the loop of [run] ends exactly when the staging map, the
    pending list and the active list are all empty: a run that returns
    has the three empty; on a state where the three are empty the loop
    returns at once; on any other state the body runs and the loop goes
    on from the state the body leaves. *)
Theorem run_loop_ends_when_all_empty s :
  (forall fuel s', run_loop tick fuel s = Some (Ok s') ->
     group_by_row s' = ∅ /\ pending_chars s' = [] /\ active_chars s' = [])
  /\ (forall fuel s',
        run color_at_fraction rain_setup tick args top fuel s = Some (Ok s') ->
        group_by_row s' = ∅ /\ pending_chars s' = [] /\ active_chars s' = [])
  /\ (group_by_row s = ∅ /\ pending_chars s = [] /\ active_chars s = [] ->
      forall fuel, run_loop tick fuel s = Some (Ok s))
  /\ (~ (group_by_row s = ∅ /\ pending_chars s = [] /\ active_chars s = []) ->
      run_loop tick 0 s = None
      /\ exists s1, frame tick s = Ok s1
           /\ forall fuel, run_loop tick (S fuel) s = run_loop tick fuel s1).
Proof.
  split; [|split; [|split]].
  - intros fuel s' H. apply run_loop_reaches in H as [_ H].
    now apply loop_condition_false.
  - intros fuel s' H. unfold run in H.
    destruct (run_init _ _ _ _ _) as [s0|e]; [|discriminate].
    apply run_loop_reaches in H as [_ H]. now apply loop_condition_false.
  - intros H fuel. apply loop_condition_false in H.
    destruct fuel; simpl; now rewrite H.
  - intros H. rewrite <- loop_condition_false in H.
    apply not_false_is_true in H. split; [simpl; now rewrite H|].
    destruct (frame_total s) as [s1 Hs1]. exists s1. split; [assumption|].
    intros fuel. simpl. now rewrite H, Hs1.
Qed.

(** *** Every character is revealed once *)

Lemma staged_delete (m : gmap Z (list nat)) (k : Z) (grp : list nat) :
  m !! k = Some grp ->
  mjoin (map_to_list m).*2 ≡ₚ grp ++ mjoin (map_to_list (delete k m)).*2.
Proof.
  intros Hk. rewrite <- (map_to_list_delete m k grp Hk). reflexivity.
Qed.

Lemma staged_insert_fresh (m : gmap Z (list nat)) (k : Z) (grp : list nat) :
  m !! k = None ->
  mjoin (map_to_list (<[k := grp]> m)).*2 ≡ₚ grp ++ mjoin (map_to_list m).*2.
Proof. intros Hk. rewrite (map_to_list_insert m k grp Hk). reflexivity. Qed.

Lemma stage_next_group_population s s1 :
  stage_next_group s = Ok s1 ->
  population s1 ≡ₚ population s /\ trace s1 = trace s
  /\ active_chars s1 = active_chars s /\ characters s1 = characters s.
Proof.
  unfold stage_next_group. destruct (_ && _).
  - intros H. apply bind_Ok in H as (k & _ & H).
    apply bind_Ok in H as ([grp m] & Hpop & [= <-]).
    unfold dict_pop in Hpop.
    destruct (group_by_row s !! k) as [grp'|] eqn:Hk; [|discriminate].
    injection Hpop as <- <-. repeat split; try reflexivity.
    unfold population, staged. simpl.
    rewrite (staged_delete _ _ _ Hk), <- !app_assoc. reflexivity.
  - intros [= <-]. auto.
Qed.

Lemma reveals_population s rs s' :
  reveals s rs s' -> population s' ≡ₚ population s.
Proof.
  intros (Ht & _ & Hp & Hg & _). unfold population, staged.
  rewrite Ht, Hg, Hp, revealed_app, revealed_EvReveal, <- !app_assoc.
  reflexivity.
Qed.

Lemma frame_population s s' :
  frame tick s = Ok s' -> population s' ≡ₚ population s.
Proof.
  intros Hf.
  destruct (frame_spec s s' Hf)
    as (s1 & rs & s2 & Hs1 & _ & Hrev & _ & Ht1 & _ & _ & Ht & _ & _ & Hp & Hg).
  apply stage_next_group_population in Hs1 as [Hpop _].
  rewrite <- Hpop, <- (reveals_population _ _ _ Hrev).
  destruct Hrev as (Ht2 & _ & _ & Hg2 & _).
  unfold population, staged. rewrite Hp, Hg, Hg2, Ht, Ht2, Ht1.
  rewrite !revealed_app, revealed_EvTick, revealed_EvReveal. simpl.
  now rewrite !app_nil_r.
Qed.

Lemma reaches_population s s' :
  reaches tick s s' -> population s' ≡ₚ population s.
Proof.
  induction 1 as [s|s s1 s2 _ Hf _ IH]; [reflexivity|].
  rewrite IH. now apply frame_population.
Qed.

(** [prepare_data], loop by loop. *)
Lemma final_colors_spec (l : list nat) s s' :
  for_each (final_color_of color_at_fraction args top) l s = Ok s' ->
  characters s' = characters s /\ pending_chars s' = pending_chars s
  /\ active_chars s' = active_chars s /\ group_by_row s' = group_by_row s
  /\ trace s' = trace s /\ gen s' = gen s.
Proof.
  revert s. induction l as [|i l IH]; intros s; simpl.
  - intros [= <-]. repeat split; reflexivity.
  - intros H. apply bind_Ok in H as (s1 & H1 & H).
    apply IH in H as (-> & -> & -> & -> & -> & ->).
    unfold final_color_of in H1. destruct (decide (top = 0)); [discriminate|].
    injection H1 as <-. repeat split; reflexivity.
Qed.

Lemma configure_character_spec (i : nat) s s' :
  configure_character rain_setup args top i s = Ok s' ->
  pending_chars s' = pending_chars s ++ [i]
  /\ length (characters s') = length (characters s)
  /\ active_chars s' = active_chars s /\ group_by_row s' = group_by_row s
  /\ trace s' = trace s.
Proof.
  unfold configure_character. intros H.
  apply bind_Ok in H as ([raindrop g1] & _ & H).
  apply bind_Ok in H as ([sym g2] & _ & H).
  apply bind_Ok in H as (final & _ & H).
  destruct (uniform _ _ g2) as [speed g3]. injection H as <-. simpl.
  now rewrite length_alter.
Qed.

Lemma configure_characters_spec (l : list nat) s s' :
  for_each (configure_character rain_setup args top) l s = Ok s' ->
  pending_chars s' = pending_chars s ++ l
  /\ length (characters s') = length (characters s)
  /\ active_chars s' = active_chars s /\ group_by_row s' = group_by_row s
  /\ trace s' = trace s.
Proof.
  revert s. induction l as [|i l IH]; intros s; simpl.
  - intros [= <-]. now rewrite app_nil_r.
  - intros H. apply bind_Ok in H as (s1 & H1 & H).
    apply IH in H as (-> & -> & -> & -> & ->).
    apply configure_character_spec in H1 as (-> & -> & -> & -> & ->).
    now rewrite <- app_assoc.
Qed.

Lemma group_character_spec (i : nat) s :
  let s' := group_character i s in
  staged s' ≡ₚ staged s ++ [i]
  /\ characters s' = characters s /\ pending_chars s' = pending_chars s
  /\ active_chars s' = active_chars s /\ trace s' = trace s.
Proof.
  simpl. repeat split. unfold staged, group_character. simpl.
  destruct (group_by_row s !! row_of s i) as [grp|] eqn:Hr.
  - rewrite (alter_alt_Some _ _ _ _ Hr), <- insert_delete_eq.
    rewrite staged_insert_fresh by apply lookup_delete_eq.
    rewrite (staged_delete _ _ _ Hr), <- !app_assoc.
    apply Permutation_app_head, Permutation_app_comm.
  - rewrite alter_insert_eq. rewrite staged_insert_fresh by assumption.
    simpl. apply Permutation_cons_append.
Qed.

Lemma group_characters_spec (l : list nat) s :
  let s' := foldl (fun s i => group_character i s) s l in
  staged s' ≡ₚ staged s ++ l
  /\ characters s' = characters s /\ pending_chars s' = pending_chars s
  /\ active_chars s' = active_chars s /\ trace s' = trace s.
Proof.
  revert s. induction l as [|i l IH]; intros s; simpl.
  - now rewrite app_nil_r.
  - destruct (IH (group_character i s)) as (-> & -> & -> & -> & ->).
    destruct (group_character_spec i s) as (-> & -> & -> & -> & ->).
    now rewrite <- app_assoc.
Qed.

Lemma insert_by_Permutation key x l : insert_by key x l ≡ₚ x :: l.
Proof.
  induction l as [|y l IH]; simpl; [reflexivity|].
  destruct (decide _); [reflexivity|]. rewrite IH. apply Permutation_swap.
Qed.

Lemma sorted_Permutation key l : sorted key l ≡ₚ l.
Proof.
  induction l as [|x l IH]; simpl; [reflexivity|].
  now rewrite insert_by_Permutation, IH.
Qed.

(** When the loop starts, nothing is revealed, pending or active, and
    every character of the terminal is staged, once. *)
Lemma run_init_spec cs g s0 :
  run_init color_at_fraction rain_setup args top (new_effect cs g) = Ok s0 ->
  trace s0 = [EvPrint] /\ pending_chars s0 = [] /\ active_chars s0 = []
  /\ length (characters s0) = length cs
  /\ staged s0 ≡ₚ seq 0 (length cs).
Proof.
  unfold run_init, prepare_data. intros H.
  apply bind_Ok in H as (s3 & H & [= <-]).
  apply bind_Ok in H as (s1 & H1 & H).
  apply bind_Ok in H as (s2 & H2 & [= <-]).
  apply final_colors_spec in H1 as (Hc1 & Hp1 & Ha1 & Hg1 & Ht1 & _).
  apply configure_characters_spec in H2 as (Hp2 & Hc2 & Ha2 & Hg2 & Ht2).
  destruct (group_characters_spec (sorted (row_of s2) (pending_chars s2)) s2)
    as (Hst & Hc3 & _ & Ha3 & Ht3).
  simpl. rewrite Ht3, Ha3, Hc3, Hst, Ht2, Ha2, Hc2, Ht1, Ha1, Hc1.
  repeat split; try reflexivity.
  rewrite sorted_Permutation, Hp2, Hp1. unfold staged. rewrite Hg2, Hg1.
  unfold get_characters. rewrite Hc1. simpl.
  now rewrite map_to_list_empty.
Qed.

(** C8: in a run, from a new effect through every state the loop
    reaches, no character is revealed twice; and revealed, pending and
    staged characters together are the characters of the terminal, each
    once. *)
Theorem run_reveals_each_character_once cs g s0 s :
  run_init color_at_fraction rain_setup args top (new_effect cs g) = Ok s0 ->
  reaches tick s0 s ->
  NoDup (revealed (trace s))
  /\ revealed (trace s) ++ pending_chars s ++ staged s ≡ₚ seq 0 (length cs).
Proof.
  intros Hinit Hreach.
  apply run_init_spec in Hinit as (Ht & Hp & _ & _ & Hst).
  assert (Hpop : population s ≡ₚ seq 0 (length cs)).
  { rewrite (reaches_population _ _ Hreach). unfold population.
    now rewrite Ht, Hp, Hst. }
  split; [|exact Hpop].
  assert (Hnd : NoDup (population s)) by (rewrite Hpop; apply NoDup_seq).
  now apply NoDup_app in Hnd as [Hnd _].
Qed.

(** *** Runs and the random generator *)

Section Determinism.
Variable same_draws : G -> G -> Prop.
Hypothesis same_draws_randbelow : forall n g1 g2,
  same_draws g1 g2 ->
  (randbelow n g1).1 = (randbelow n g2).1
  /\ same_draws (randbelow n g1).2 (randbelow n g2).2.
Hypothesis same_draws_uniform : forall (a b : Float) g1 g2,
  same_draws g1 g2 ->
  (uniform a b g1).1 = (uniform a b g2).1
  /\ same_draws (uniform a b g1).2 (uniform a b g2).2.

Local Abbreviation sim := (@Rain.sim Color E G same_draws).
Local Abbreviation sim_result := (@Rain.sim_result Color E G same_draws).
Local Abbreviation sim_draw := (@Rain.sim_draw G same_draws).

Ltac sim_fields H :=
  let Hc := fresh "Hc" in let Hp := fresh "Hp" in let Ha := fresh "Ha" in
  let Hg := fresh "Hg" in let Hm := fresh "Hm" in let Ht := fresh "Ht" in
  let Hr := fresh "Hr" in
  destruct H as (Hc & Hp & Ha & Hg & Hm & Ht & Hr).

Lemma randint_sim a b g1 g2 :
  same_draws g1 g2 -> sim_draw (randint a b g1) (randint a b g2).
Proof.
  intros Hr. unfold randint. destruct (decide (a <= b)); [|reflexivity].
  destruct (same_draws_randbelow (Z.to_nat (b - a + 1)) g1 g2 Hr) as [Hk Hg].
  destruct (randbelow _ g1) as [k1 g1'], (randbelow _ g2) as [k2 g2'].
  simpl in *. subst. auto.
Qed.

Lemma choice_sim {A} (l : list A) g1 g2 :
  same_draws g1 g2 -> sim_draw (choice l g1) (choice l g2).
Proof.
  intros Hr. unfold choice. destruct l as [|x l]; [reflexivity|].
  destruct (same_draws_randbelow (length (x :: l)) g1 g2 Hr) as [Hk Hg].
  destruct (randbelow _ g1) as [k1 g1'], (randbelow _ g2) as [k2 g2'].
  simpl in Hk, Hg. subst k2.
  destruct ((x :: l) !! k1); simpl; auto.
Qed.

Lemma bind_draw_sim {A} (m1 m2 : Result (A * G)) (f1 f2 : A * G -> Result State) :
  sim_draw m1 m2 ->
  (forall a g1 g2, same_draws g1 g2 -> sim_result (f1 (a, g1)) (f2 (a, g2))) ->
  sim_result (m1 ≫= f1) (m2 ≫= f2).
Proof.
  intros Hm Hf. destruct m1 as [[a1 g1]|e1], m2 as [[a2 g2]|e2]; simpl in *;
    try contradiction; [|assumption].
  destruct Hm as [-> Hr]. now apply Hf.
Qed.

Lemma bind_sim (m1 m2 : Result State) (f1 f2 : State -> Result State) :
  sim_result m1 m2 ->
  (forall a b, sim a b -> sim_result (f1 a) (f2 b)) ->
  sim_result (m1 ≫= f1) (m2 ≫= f2).
Proof.
  intros Hm Hf. destruct m1 as [a|e1], m2 as [b|e2]; simpl in *;
    try contradiction; [|assumption].
  now apply Hf.
Qed.

Lemma for_each_sim {A} (body : A -> State -> Result State) (l : list A) s1 s2 :
  (forall x a b, sim a b -> sim_result (body x a) (body x b)) ->
  sim s1 s2 -> sim_result (for_each body l s1) (for_each body l s2).
Proof.
  intros Hbody. revert s1 s2. induction l as [|x l IH]; intros s1 s2 Hs; simpl.
  - assumption.
  - apply bind_sim; [now apply Hbody|]. intros a b Hab. now apply IH.
Qed.

Lemma foldl_sim {A} (body : State -> A -> State) (l : list A) s1 s2 :
  (forall x a b, sim a b -> sim (body a x) (body b x)) ->
  sim s1 s2 -> sim (foldl body s1 l) (foldl body s2 l).
Proof.
  intros Hbody. revert s1 s2. induction l as [|x l IH]; intros s1 s2 Hs; simpl.
  - assumption.
  - apply IH. now apply Hbody.
Qed.

Lemma row_of_sim s1 s2 i : sim s1 s2 -> row_of s1 i = row_of s2 i.
Proof. intros H. sim_fields H. unfold row_of. now rewrite Hc. Qed.

Lemma prepare_data_sim s1 s2 :
  sim s1 s2 ->
  sim_result (prepare_data color_at_fraction rain_setup args top s1)
             (prepare_data color_at_fraction rain_setup args top s2).
Proof.
  intros Hs. unfold prepare_data.
  assert (Hids : get_characters s1 = get_characters s2).
  { unfold get_characters. now destruct Hs as [-> _]. }
  rewrite Hids.
  apply bind_sim.
  { apply for_each_sim; [|assumption]. intros i a b Hab.
    unfold final_color_of. destruct (decide (top = 0)); [reflexivity|].
    simpl. rewrite (row_of_sim a b i Hab). sim_fields Hab. simpl; unfold Rain.sim; simpl.
    rewrite ?Hm. auto 10. }
  intros a b Hab.
  assert (Hids' : get_characters a = get_characters b).
  { unfold get_characters. now destruct Hab as [-> _]. }
  rewrite Hids'.
  apply bind_sim.
  { apply for_each_sim; [|assumption]. intros i a' b' Hab'.
    unfold configure_character. sim_fields Hab'.
    apply bind_draw_sim; [now apply choice_sim|]. intros raindrop g1 g2 Hg12.
    simpl. apply bind_draw_sim; [now apply choice_sim|]. intros sym g1' g2' Hg12'.
    simpl. rewrite Hm.
    destruct (character_final_color_map b' !! i) as [final|]; [|reflexivity].
    simpl.
    destruct (same_draws_uniform (movement_speed args).1 (movement_speed args).2
                g1' g2' Hg12') as [Hsp Hg3].
    destruct (uniform _ _ g1') as [sp1 g31], (uniform _ _ g2') as [sp2 g32].
    simpl in Hsp, Hg3. subst sp2. simpl; unfold Rain.sim; simpl.
    rewrite ?Hc, ?Hp, ?Ha, ?Hg, ?Ht. auto 10. }
  intros a' b' Hab'. simpl.
  assert (Hrow : forall i, row_of a' i = row_of b' i)
    by (intros i; now apply row_of_sim).
  assert (Hsorted : sorted (row_of a') (pending_chars a')
                    = sorted (row_of b') (pending_chars b')).
  { destruct Hab' as (_ & -> & _).
    induction (pending_chars b') as [|x l IH]; simpl; [reflexivity|].
    rewrite IH. generalize (sorted (row_of b') l). intros l'.
    induction l' as [|y l' IH']; simpl; [reflexivity|].
    rewrite !Hrow, IH'. reflexivity. }
  rewrite Hsorted. apply foldl_sim; [|assumption].
  intros i a'' b'' Hab''. unfold group_character.
  rewrite (row_of_sim a'' b'' i Hab''). sim_fields Hab''. simpl; unfold Rain.sim; simpl.
  rewrite ?Hg, ?Hc, ?Hp, ?Ha, ?Hm, ?Ht. auto 10.
Qed.

Lemma stage_next_group_sim s1 s2 :
  sim s1 s2 -> sim_result (stage_next_group s1) (stage_next_group s2).
Proof.
  intros H. sim_fields H. unfold stage_next_group. rewrite Hp, Hg.
  destruct (_ && _); [|simpl; unfold Rain.sim; auto 10].
  destruct (py_min _) as [k|e]; [|reflexivity]. simpl.
  destruct (dict_pop k _) as [[grp m]|e]; [|reflexivity]. simpl.
  simpl; unfold Rain.sim; simpl. rewrite ?Hc, ?Hp, ?Ha, ?Hm, ?Ht. auto 10.
Qed.

Lemma reveal_loop_sim (n : nat) s1 s2 :
  sim s1 s2 -> sim_result (reveal_loop n s1) (reveal_loop n s2).
Proof.
  revert s1 s2. induction n as [|n IH]; intros s1 s2 H; simpl; [assumption|].
  pose proof H as H'. sim_fields H'. rewrite Hp.
  case_bool_decide; [|assumption].
  apply bind_draw_sim; [now apply randint_sim|]. intros idx g1 g2 Hg12. simpl.
  destruct (list_pop idx _) as [[x rest]|e]; [|reflexivity]. simpl.
  apply IH. simpl; unfold Rain.sim; simpl. rewrite ?Hc, ?Ha, ?Hg, ?Hm, ?Ht. auto 10.
Qed.

Lemma reveal_sim s1 s2 : sim s1 s2 -> sim_result (reveal s1) (reveal s2).
Proof.
  intros H. unfold reveal. pose proof H as H'. sim_fields H'. rewrite Hp.
  case_bool_decide; [|assumption].
  apply bind_draw_sim; [now apply randint_sim|]. intros n g1 g2 Hg12. simpl.
  apply reveal_loop_sim. simpl; unfold Rain.sim; simpl. auto 10.
Qed.

Lemma frame_sim s1 s2 :
  sim s1 s2 -> sim_result (frame tick s1) (frame tick s2).
Proof.
  intros H. unfold frame.
  apply bind_sim; [now apply stage_next_group_sim|]. intros a b Hab.
  apply bind_sim; [now apply reveal_sim|]. intros a' b' Hab'. simpl.
  assert (Hanim : sim (animate_chars tick a') (animate_chars tick b')).
  { unfold animate_chars. destruct Hab' as (Hc & Hp & Ha & Hrest).
    rewrite Ha. apply foldl_sim; [|simpl; unfold Rain.sim; auto 10].
    intros i x y Hxy. sim_fields Hxy. simpl; unfold Rain.sim; simpl.
    rewrite ?Hc0, ?Hp0, ?Ha0, ?Hg, ?Hm, ?Ht. auto 10. }
  sim_fields Hanim. simpl; unfold Rain.sim; simpl. unfold is_active_of.
  rewrite ?Hc, ?Hp, ?Ha, ?Hg, ?Hm, ?Ht. auto 10.
Qed.

Lemma loop_condition_sim s1 s2 :
  sim s1 s2 -> loop_condition s1 = loop_condition s2.
Proof. intros H. sim_fields H. unfold loop_condition. now rewrite Hp, Ha, Hg. Qed.

Lemma run_loop_sim (fuel : nat) s1 s2 :
  sim s1 s2 ->
  match run_loop tick fuel s1, run_loop tick fuel s2 with
  | Some r1, Some r2 => sim_result r1 r2
  | None, None => True
  | _, _ => False
  end.
Proof.
  revert s1 s2. induction fuel as [|fuel IH]; intros s1 s2 H; simpl;
    rewrite (loop_condition_sim s1 s2 H); destruct (loop_condition s2);
    try exact I; try exact H.
  pose proof (frame_sim s1 s2 H) as Hf.
  destruct (frame tick s1) as [a|e1], (frame tick s2) as [b|e2];
    simpl in Hf; try contradiction; [|assumption].
  now apply IH.
Qed.

(** C3, as amended: a run is a function of the terminal's characters,
    the arguments and the state of the process-wide random generator.
    Two runs on the same characters and arguments whose generators
    yield the same draws raise the same exception, or are both still
    running, or end with the same events in the same order (so the
    same reveal and tick order) and the same characters (so the same
    colours, symbols and speeds). *)
Theorem run_determined_by_draws (cs : list (EffectCharacter E)) (g1 g2 : G)
    (fuel : nat) :
  same_draws g1 g2 ->
  outcome (run color_at_fraction rain_setup tick args top fuel (new_effect cs g1))
  = outcome (run color_at_fraction rain_setup tick args top fuel (new_effect cs g2)).
Proof.
  intros Hg. unfold run, run_init.
  assert (Hnew : sim (new_effect cs g1) (new_effect cs g2))
    by (simpl; unfold Rain.sim; simpl; auto 10).
  pose proof (prepare_data_sim _ _ Hnew) as Hprep.
  destruct (prepare_data _ _ _ _ (new_effect cs g1)) as [a|e1],
           (prepare_data _ _ _ _ (new_effect cs g2)) as [b|e2];
    simpl in Hprep; try contradiction; simpl; [|now subst].
  assert (Hinit : sim (terminal_print (set_pending_chars [] a))
                      (terminal_print (set_pending_chars [] b))).
  { sim_fields Hprep. simpl; unfold Rain.sim; simpl. rewrite ?Hc, ?Ha, ?Hg0, ?Hm, ?Ht. auto 10. }
  pose proof (run_loop_sim fuel _ _ Hinit) as Hloop.
  destruct (run_loop tick fuel _) as [[x|e1]|], (run_loop tick fuel _) as [[y|e2]|];
    simpl in Hloop; try contradiction; simpl; try reflexivity; [|now subst].
  sim_fields Hloop. now rewrite Hc, Ht.
Qed.
End Determinism.

(** *** The loop ends when the characters do *)

Section Termination.
(** [life c] bounds the ticks after which [c] is no longer active: a
    tick that leaves the character active lowers it.  Visibility does
    not count. *)
Variable life : EffectCharacter E -> nat.
Hypothesis tick_life : forall c,
  is_active (tick c) = true -> (life (tick c) < life c)%nat.
Hypothesis visible_life : forall v c, life (set_visible v c) = life c.

Local Abbreviation weight cs l :=
  (sum_list_with (fun i => S (life_of life cs i)) l).

Lemma weight_ext (cs cs' : list (EffectCharacter E)) (l : list nat) :
  (forall i, i ∈ l -> life_of life cs' i = life_of life cs i) ->
  weight cs' l = weight cs l.
Proof.
  induction l as [|i l IH]; intros H; simpl; [reflexivity|].
  rewrite H by (apply elem_of_cons; now left).
  rewrite IH; [reflexivity|]. intros j Hj. apply H, elem_of_cons. now right.
Qed.

Lemma life_of_set_visible (rs : list nat) (cs : list (EffectCharacter E)) i :
  life_of life (foldl (fun cs i => alter (set_visible true) i cs) cs rs) i
  = life_of life cs i.
Proof.
  revert cs. induction rs as [|j rs IH]; intros cs; simpl; [reflexivity|].
  rewrite IH. unfold life_of. rewrite list_lookup_alter.
  destruct (decide (j = i)) as [->|]; [|reflexivity].
  destruct (cs !! i); simpl; [apply visible_life|reflexivity].
Qed.

(** One tick of the characters of [l], then the filter: every character
    of the list gives up at least one unit. *)
Lemma weight_tick (l l' : list nat) (cs : list (EffectCharacter E)) :
  NoDup l -> l' ⊆ l ->
  let cs' := foldl (fun cs i => alter tick i cs) cs l in
  (weight cs' (filter (fun i => from_option is_active false (cs' !! i) = true) l')
   + length l' <= weight cs l')%nat.
Proof.
  intros Hnd Hsub cs'. induction l' as [|i l' IH]; simpl; [lia|].
  assert (Hi : i ∈ l) by (apply Hsub, elem_of_cons; now left).
  assert (Hsub' : l' ⊆ l) by (intros j Hj; apply Hsub, elem_of_cons; now right).
  specialize (IH Hsub').
  assert (Hlook : cs' !! i = tick <$> cs !! i).
  { unfold cs'. rewrite foldl_alter_lookup by assumption.
    now rewrite decide_True by assumption. }
  rewrite filter_cons. unfold life_of at 2.
  destruct (decide _) as [Hact|Hact]; simpl.
  - unfold life_of at 1. rewrite Hlook in Hact |- *.
    destruct (cs !! i) as [c|]; simpl in *; [|discriminate].
    pose proof (tick_life c Hact). lia.
  - destruct (cs !! i); lia.
Qed.

Lemma weight_untouched (l rest : list nat) (cs : list (EffectCharacter E)) :
  NoDup l -> (forall i, i ∈ rest -> i ∉ l) ->
  weight (foldl (fun cs i => alter tick i cs) cs l) rest = weight cs rest.
Proof.
  intros Hnd Hdisj. apply weight_ext. intros i Hi. unfold life_of.
  rewrite foldl_alter_lookup by assumption.
  now rewrite decide_False by (now apply Hdisj).
Qed.

Lemma stage_next_group_cases s s1 :
  stage_next_group s = Ok s1 ->
  (s1 = s /\ (pending_chars s <> [] \/ group_by_row s = ∅))
  \/ (pending_chars s = [] /\ group_by_row s <> ∅
      /\ exists k grp, group_by_row s !! k = Some grp
           /\ s1 = set_group_by_row (delete k (group_by_row s))
                     (set_pending_chars grp s)).
Proof.
  intros H.
  destruct (decide (pending_chars s = [])) as [Hp|Hp];
    [destruct (decide (group_by_row s = ∅)) as [Hg|Hg]|].
  - left. rewrite stage_next_group_skip in H by (now right).
    injection H as <-. auto.
  - right. destruct (stage_next_group_pop s Hp Hg) as (k & grp & Hk & _ & Hs).
    rewrite Hs in H. injection H as <-. eauto 10.
  - left. rewrite stage_next_group_skip in H by (now left).
    injection H as <-. auto.
Qed.

Lemma stage_next_group_workload s s1 :
  stage_next_group s = Ok s1 ->
  scheduled s1 ≡ₚ scheduled s
  /\ (workload life s1 <= workload life s)%nat
  /\ (pending_chars s = [] -> group_by_row s <> ∅ ->
      (workload life s1 < workload life s)%nat).
Proof.
  intros H. apply stage_next_group_cases in H
    as [[-> Hskip]|(Hp & Hg & k & grp & Hk & ->)].
  - split; [reflexivity|]. split; [lia|]. intros Hp Hg.
    destruct Hskip; contradiction.
  - assert (Hperm : scheduled (set_group_by_row (delete k (group_by_row s))
                                 (set_pending_chars grp s)) ≡ₚ scheduled s).
    { unfold scheduled, staged. simpl.
      rewrite Hp, (staged_delete _ _ _ Hk), <- !app_assoc. reflexivity. }
    split; [exact Hperm|].
    assert (workload life (set_group_by_row (delete k (group_by_row s))
                             (set_pending_chars grp s)) < workload life s)%nat.
    { unfold workload. rewrite Hperm. simpl.
      rewrite map_size_delete_Some by eauto.
      assert (size (group_by_row s) <> 0%nat); [|lia].
      intros Hz. apply map_size_empty_iff in Hz. contradiction. }
    split; [lia|]. auto.
Qed.

Lemma reveals_workload s rs s' :
  reveals s rs s' ->
  scheduled s' ≡ₚ scheduled s /\ workload life s' = workload life s.
Proof.
  intros (_ & Ha & Hp & Hg & _ & Hc).
  assert (Hperm : scheduled s' ≡ₚ scheduled s).
  { unfold scheduled, staged. rewrite Ha, Hg, Hp.
    rewrite (Permutation_app_comm rs), <- !app_assoc.
    apply Permutation_app_head. rewrite app_assoc.
    apply Permutation_app_comm. }
  split; [exact Hperm|]. unfold workload. rewrite Hg, Hperm. f_equal.
  apply weight_ext. intros i _. rewrite Hc. apply life_of_set_visible.
Qed.

Lemma frame_workload s s' :
  frame tick s = Ok s' -> NoDup (scheduled s) ->
  NoDup (scheduled s')
  /\ (loop_condition s = true -> (workload life s' < workload life s)%nat).
Proof.
  intros Hf Hnd.
  destruct (frame_spec s s' Hf)
    as (s1 & rs & s2 & Hs1 & _ & Hrev & Hne & _ & Ha1 & _ & _ & Hc' & Ha' & Hp' & Hg').
  pose proof (stage_next_group_cases s s1 Hs1) as Hcases.
  apply stage_next_group_workload in Hs1 as (Hperm1 & Hle1 & Hlt1).
  pose proof Hrev as Hrev'.
  apply reveals_workload in Hrev' as [Hperm2 Hw2].
  destruct Hrev as (_ & Ha2 & _ & Hg2 & _).
  assert (Hnd2 : NoDup (scheduled s2)) by now rewrite Hperm2, Hperm1.
  unfold scheduled in Hnd2. rewrite app_assoc in Hnd2.
  apply NoDup_app in Hnd2 as (Hnd_rest & Hdisj & Hnd_act).
  assert (Hst : staged s' = staged s2) by (unfold staged; now rewrite Hg', Hg2).
  split.
  - unfold scheduled. rewrite Hp', Hst, Ha', app_assoc.
    apply NoDup_app. split; [assumption|]. split.
    + intros i Hi Hin. apply list_elem_of_filter in Hin as [_ Hin].
      now apply (Hdisj i).
    + now apply NoDup_filter.
  - intros Hcond.
    assert (Htick : (workload life s' + length (active_chars s2)
                     <= workload life s2)%nat).
    { unfold workload, scheduled. rewrite Hp', Hst, Hg', Hg2, Ha', Hc'.
      rewrite !(app_assoc (pending_chars s2)), !sum_list_with_app.
      rewrite (weight_untouched (active_chars s2) (pending_chars s2));
        [|assumption|intros i Hi; apply Hdisj, elem_of_app; now left].
      rewrite (weight_untouched (active_chars s2) (staged s2));
        [|assumption|intros i Hi; apply Hdisj, elem_of_app; now right].
      pose proof (weight_tick (active_chars s2) (active_chars s2)
                    (characters s2) Hnd_act (fun _ H => H)) as Hw.
      simpl in Hw.
      assert (Hfilter :
        filter (fun i => is_active_of s' i = true) (active_chars s2)
        = filter (fun i => from_option is_active false
                    (foldl (fun cs i => alter tick i cs) (characters s2)
                       (active_chars s2) !! i) = true) (active_chars s2)).
      { apply list_filter_iff. intros i. unfold is_active_of. rewrite Hc'.
        now destruct (_ !! i). }
      rewrite Hfilter. lia. }
    destruct (decide (pending_chars s = [])) as [Hp|Hp];
      [destruct (decide (group_by_row s = ∅)) as [Hg|Hg]|].
    + assert (active_chars s <> []).
      { intros Ha. apply not_false_iff_true in Hcond. apply Hcond.
        now apply loop_condition_false. }
      assert (length (active_chars s2) <> 0%nat).
      { rewrite Ha2, Ha1, length_app. destruct (active_chars s); [congruence|].
        simpl. lia. }
      lia.
    + specialize (Hlt1 Hp Hg). lia.
    + assert (s1 = s) as ->.
      { destruct Hcases as [[-> _]|(Hp0 & _)]; [reflexivity|contradiction]. }
      specialize (Hne Hp).
      assert (length (active_chars s2) <> 0%nat).
      { rewrite Ha2, length_app. destruct rs; [congruence|]. simpl. lia. }
      lia.
Qed.

(** With as much fuel as there is work, the loop returns. *)
Lemma run_loop_terminates (fuel : nat) s :
  NoDup (scheduled s) -> (workload life s <= fuel)%nat ->
  exists s', run_loop tick fuel s = Some (Ok s').
Proof.
  revert s. induction fuel as [|fuel IH]; intros s Hnd Hw; simpl;
    destruct (loop_condition s) eqn:Hcond; eauto.
  - destruct (frame_total s) as [s' Hf].
    destruct (frame_workload s s' Hf Hnd) as [_ Hlt]. specialize (Hlt Hcond). lia.
  - destruct (frame_total s) as [s' Hf]. rewrite Hf.
    destruct (frame_workload s s' Hf Hnd) as [Hnd' Hlt]. specialize (Hlt Hcond).
    apply IH; [assumption|lia].
Qed.

(** X1: [run] returns, and within a known number of frames.  Let
    [life] bound the ticks a character stays active for: a tick that
    leaves the character active lowers it, and it does not depend on the
    visibility of the character.  If [prepare_data] raises, [run] raises
    the same exception.  Otherwise, with [s0] the state when the loop
    starts, [workload life s0] turns of the loop are enough: [run]
    returns with the staging map, the pending list and the active list
    empty and every character revealed once.  That number is the number
    of staged rows plus, for every character of the terminal, one more
    than its bound. *)
Theorem run_terminates (cs : list (EffectCharacter E)) (g : G) :
  (forall e,
     run_init color_at_fraction rain_setup args top (new_effect cs g) = Raise e ->
     forall fuel,
       run color_at_fraction rain_setup tick args top fuel (new_effect cs g)
       = Some (Raise e))
  /\ (forall s0,
        run_init color_at_fraction rain_setup args top (new_effect cs g) = Ok s0 ->
        workload life s0
        = (size (group_by_row s0)
           + sum_list_with (fun i => S (life_of life (characters s0) i))
               (seq 0 (length cs)))%nat
        /\ forall fuel, (workload life s0 <= fuel)%nat ->
             exists s',
               run color_at_fraction rain_setup tick args top fuel
                 (new_effect cs g) = Some (Ok s')
               /\ group_by_row s' = ∅ /\ pending_chars s' = []
               /\ active_chars s' = []
               /\ revealed (trace s') ≡ₚ seq 0 (length cs)).
Proof.
  unfold run. split.
  - intros e ->. reflexivity.
  - intros s0 Hinit. rewrite Hinit.
    pose proof (run_init_spec cs g s0 Hinit) as (Ht & Hp & Ha & _ & Hst).
    assert (Hsched : scheduled s0 ≡ₚ seq 0 (length cs)).
    { unfold scheduled. now rewrite Hp, Ha, app_nil_r. }
    split.
    + unfold workload. now rewrite Hsched.
    + intros fuel Hfuel.
      assert (Hnd : NoDup (scheduled s0)) by (rewrite Hsched; apply NoDup_seq).
      destruct (run_loop_terminates fuel s0 Hnd Hfuel) as [s' Hs'].
      exists s'. split; [assumption|].
      destruct (run_loop_reaches _ _ _ Hs') as [Hreach Hcond].
      apply loop_condition_false in Hcond as (Hg' & Hp' & Ha').
      repeat (split; [assumption|]).
      pose proof (reaches_population _ _ Hreach) as Hpop.
      unfold population in Hpop. rewrite Ht, Hp, Hst, Hp' in Hpop.
      unfold staged in Hpop. rewrite Hg', map_to_list_empty in Hpop.
      simpl in Hpop. now rewrite !app_nil_r in Hpop.
Qed.
End Termination.

(** *** The shape of a frame and what a run keeps true *)

Import Schedule.

Lemma reveals_unique s rs rs' s' :
  reveals s rs s' -> reveals s rs' s' -> rs = rs'.
Proof.
  intros (Ht & _) (Ht' & _). rewrite Ht in Ht'.
  apply app_inv_head in Ht'. apply (f_equal revealed) in Ht'.
  now rewrite !revealed_EvReveal in Ht'.
Qed.

Lemma reveals_pending s rs s' i : reveals s rs s' -> i ∈ rs -> i ∈ pending_chars s.
Proof.
  intros (_ & _ & Hp & _) Hi. rewrite Hp. apply elem_of_app. now left.
Qed.

(** [reveal] takes one to three characters from a non-empty pending
    list. *)
Lemma reveal_spec_bound s :
  exists rs s',
    reveal s = Ok s' /\ reveals s rs s'
    /\ (length rs <= 3)%nat
    /\ (pending_chars s <> [] -> rs <> []).
Proof.
  unfold reveal. case_bool_decide as Hp.
  - destruct (randint_ok 1 3 (gen s)) as (n & g & -> & Hn); [lia|]. simpl.
    destruct (reveal_loop_spec (Z.to_nat n) (set_gen g s))
      as (rs & s' & Hloop & Hrev & Hlen & Hne).
    exists rs, s'. split; [assumption|]. split; [|split].
    + apply (reveals_trans s [] (set_gen g s) rs s');
        [apply reveals_set_gen|assumption].
    + lia.
    + intros _. apply Hne; [lia|assumption].
  - exists [], s. split; [reflexivity|]. split; [apply reveals_nil|].
    split; [simpl; lia|tauto].
Qed.

Lemma frame_spec_bound s s' :
  frame tick s = Ok s' ->
  exists s1 rs s2,
    stage_next_group s = Ok s1 /\ reveal s1 = Ok s2 /\ reveals s1 rs s2
    /\ (length rs <= 3)%nat.
Proof.
  intros Hf.
  destruct (frame_spec s s' Hf) as (s1 & rs & s2 & Hs1 & Hs2 & Hrev & _).
  destruct (reveal_spec_bound s1) as (rs' & s2' & Hs2' & Hrev' & Hlen & _).
  rewrite Hs2 in Hs2'. injection Hs2' as <-.
  exists s1, rs', s2. auto.
Qed.

(** Everything a turn of the loop does, in one place. *)
Lemma frame_shape s s' :
  frame tick s = Ok s' ->
  exists s1 rs s2,
    stage_next_group s = Ok s1 /\ reveal s1 = Ok s2 /\ reveals s1 rs s2
    /\ (length rs <= 3)%nat
    /\ (pending_chars s1 <> [] -> rs <> [])
    /\ trace s'
       = trace s ++ (EvReveal <$> rs) ++ (EvTick <$> (active_chars s ++ rs))
           ++ [EvPrint]
    /\ revealed (trace s') = revealed (trace s) ++ rs
    /\ active_chars s'
       = filter (fun i => is_active_of s' i = true) (active_chars s ++ rs)
    /\ characters s'
       = foldl (fun cs i => alter tick i cs)
           (foldl (fun cs i => alter (set_visible true) i cs) (characters s) rs)
           (active_chars s ++ rs)
    /\ pending_chars s' = pending_chars s2
    /\ group_by_row s' = group_by_row s1.
Proof.
  intros Hf.
  destruct (frame_spec s s' Hf)
    as (s1 & rs & s2 & Hs1 & Hs2 & Hrev & Hne & _ & Ha1 & Hc1 & Ht & Hc & Ha & Hp & Hg).
  destruct (frame_spec_bound s s' Hf)
    as (s1' & rs' & s2' & Hs1' & Hs2' & Hrev' & Hlen).
  rewrite Hs1 in Hs1'. injection Hs1' as <-.
  rewrite Hs2 in Hs2'. injection Hs2' as <-.
  rewrite <- (reveals_unique _ _ _ _ Hrev Hrev') in Hlen.
  exists s1, rs, s2. repeat (split; [assumption|]).
  destruct Hrev as (_ & Ha2 & _ & _ & _ & Hc2).
  rewrite Ht, Ha, Hc, Hc2, Ha2, Ha1, Hc1.
  repeat (split; [reflexivity|]). split; [|auto].
  rewrite !revealed_app, revealed_EvReveal, revealed_EvTick. simpl.
  now rewrite app_nil_r.
Qed.

(** X2: the events of one turn of the loop are the reveals of at most
    three characters, then one tick of every character that was active
    when the turn began followed by one tick of every character just
    revealed, in this order, then the print; the active list the turn
    leaves is that ticked list without the characters that are no
    longer active. *)
Theorem frame_reveals_then_ticks_all s s' :
  frame tick s = Ok s' ->
  exists rs : list nat,
    (length rs <= 3)%nat
    /\ trace s'
       = trace s ++ (EvReveal <$> rs) ++ (EvTick <$> (active_chars s ++ rs))
           ++ [EvPrint]
    /\ active_chars s'
       = filter (fun i => is_active_of s' i = true) (active_chars s ++ rs).
Proof.
  intros Hf.
  destruct (frame_shape s s' Hf)
    as (s1 & rs & s2 & _ & _ & _ & Hlen & _ & Ht & _ & Ha & _).
  exists rs. auto.
Qed.

Lemma reaches_invariant (P : State -> Prop) s0 s :
  (forall a b, P a -> loop_condition a = true -> frame tick a = Ok b -> P b) ->
  reaches tick s0 s -> P s0 -> P s.
Proof.
  intros Hstep. induction 1 as [s|s s1 s2 Hc Hf _ IH]; [auto|].
  intros HP. apply IH. now apply (Hstep s s1).
Qed.

Lemma elem_of_revealed (t : list Event) (i : nat) :
  i ∈ revealed t <-> EvReveal i ∈ t.
Proof.
  unfold revealed. rewrite list_elem_of_omap. split.
  - intros (e & He & Hi). destruct e; try discriminate. now injection Hi as ->.
  - intros Hi. now exists (EvReveal i).
Qed.

Lemma foldl_alter_lookup_notin (f : EffectCharacter E -> EffectCharacter E)
    (l : list nat) (cs : list (EffectCharacter E)) (i : nat) :
  i ∉ l -> foldl (fun cs i => alter f i cs) cs l !! i = cs !! i.
Proof.
  revert cs. induction l as [|j l IH]; intros cs Hi; simpl; [reflexivity|].
  rewrite not_elem_of_cons in Hi. destruct Hi as [Hij Hi].
  rewrite IH by assumption. apply list_lookup_alter_ne. congruence.
Qed.


Lemma frame_active_revealed s s' :
  frame tick s = Ok s' -> active_revealed s -> active_revealed s'.
Proof.
  intros Hf [Hsub Hticks].
  destruct (frame_shape s s' Hf)
    as (s1 & rs & s2 & _ & _ & _ & _ & _ & Ht & Hr & Ha & _).
  split.
  - rewrite Ha, Hr. etransitivity; [apply sublist_filter|].
    now apply sublist_app.
  - intros n i Hn. rewrite Ht in Hn.
    apply lookup_app_Some in Hn as [Hn|[Hlen Hn]].
    + destruct (Hticks n i Hn) as (m & Hm & Hlook). exists m. split; [assumption|].
      rewrite Ht. now apply lookup_app_l_Some.
    + apply lookup_app_Some in Hn as [Hn|[Hlen2 Hn]].
      { rewrite list_lookup_fmap in Hn. destruct (rs !! _); discriminate. }
      apply lookup_app_Some in Hn as [Hn|[_ Hn]].
      2:{ destruct (_ - _ - _)%nat as [|k]; simpl in Hn; [discriminate|].
          now rewrite lookup_nil in Hn. }
      rewrite list_lookup_fmap in Hn.
      destruct ((active_chars s ++ rs) !! _) as [j|] eqn:Hj; [|discriminate].
      injection Hn as ->. apply list_elem_of_lookup_2 in Hj.
      rewrite length_fmap in Hlen2.
      apply elem_of_app in Hj as [Hj|Hj].
      * assert (Hin : i ∈ revealed (trace s)).
        { eapply elem_of_sublist; eassumption. }
        apply elem_of_revealed, list_elem_of_lookup in Hin as [m Hm].
        exists m. split.
        -- apply lookup_lt_Some in Hm. lia.
        -- rewrite Ht. now apply lookup_app_l_Some.
      * apply list_elem_of_lookup in Hj as [k Hk].
        exists (length (trace s) + k)%nat. split.
        -- apply lookup_lt_Some in Hk. lia.
        -- rewrite Ht, lookup_app_r by lia.
           replace (length (trace s) + k - length (trace s))%nat with k by lia.
           apply lookup_app_l_Some. now rewrite list_lookup_fmap, Hk.
Qed.

Lemma frame_untouched s s' i :
  frame tick s = Ok s' -> active_revealed s -> i ∉ revealed (trace s') ->
  characters s' !! i = characters s !! i.
Proof.
  intros Hf [Hsub _] Hi.
  destruct (frame_shape s s' Hf)
    as (s1 & rs & s2 & _ & _ & _ & _ & _ & _ & Hr & _ & Hc & _).
  rewrite Hr, not_elem_of_app in Hi. destruct Hi as [Hi1 Hi2].
  rewrite Hc, !foldl_alter_lookup_notin; [reflexivity|assumption|].
  rewrite not_elem_of_app. split; [|assumption].
  intros Hin. apply Hi1. eapply elem_of_sublist; eassumption.
Qed.

Lemma run_init_active_revealed cs g s0 :
  run_init color_at_fraction rain_setup args top (new_effect cs g) = Ok s0 ->
  active_revealed s0.
Proof.
  intros H. apply run_init_spec in H as (Ht & _ & Ha & _).
  split.
  - rewrite Ha. apply sublist_nil_l.
  - intros n i Hn. rewrite Ht in Hn.
    destruct n; simpl in Hn; [discriminate|]. now rewrite lookup_nil in Hn.
Qed.

Lemma reaches_active_revealed cs g s0 s :
  run_init color_at_fraction rain_setup args top (new_effect cs g) = Ok s0 ->
  reaches tick s0 s -> active_revealed s.
Proof.
  intros Hinit Hreach.
  apply (reaches_invariant active_revealed s0 s); [|assumption|].
  - intros a b Ha _ Hf. now apply (frame_active_revealed a b).
  - now apply (run_init_active_revealed cs g).
Qed.

Lemma reaches_population_NoDup cs g s0 s :
  run_init color_at_fraction rain_setup args top (new_effect cs g) = Ok s0 ->
  reaches tick s0 s ->
  population s ≡ₚ seq 0 (length cs) /\ NoDup (population s).
Proof.
  intros Hinit Hreach.
  apply run_init_spec in Hinit as (Ht & Hp & _ & _ & Hst).
  assert (Hpop : population s ≡ₚ seq 0 (length cs)).
  { rewrite (reaches_population _ _ Hreach). unfold population.
    now rewrite Ht, Hp, Hst. }
  split; [assumption|]. rewrite Hpop. apply NoDup_seq.
Qed.

(** X3: in a run no character is ticked before it is revealed: every
    tick event of a character has a reveal event of the same character
    before it; and the active list is always a sub-list, without
    duplicates, of the list of reveals, in the order of the reveals. *)
Theorem run_ticks_only_revealed_characters cs g s0 s :
  run_init color_at_fraction rain_setup args top (new_effect cs g) = Ok s0 ->
  reaches tick s0 s ->
  (forall n i, trace s !! n = Some (EvTick i) ->
     exists m, (m < n)%nat /\ trace s !! m = Some (EvReveal i))
  /\ active_chars s `sublist_of` revealed (trace s)
  /\ NoDup (active_chars s).
Proof.
  intros Hinit Hreach.
  destruct (reaches_active_revealed cs g s0 s Hinit Hreach) as [Hsub Hticks].
  destruct (reaches_population_NoDup cs g s0 s Hinit Hreach) as [_ Hnd].
  split; [exact Hticks|]. split; [exact Hsub|].
  apply NoDup_app in Hnd as [Hnd _]. eapply sublist_NoDup; eassumption.
Qed.

Lemma reaches_revealed_mono s s' i :
  reaches tick s s' -> i ∈ revealed (trace s) -> i ∈ revealed (trace s').
Proof.
  induction 1 as [s|s s1 s2 _ Hf _ IH]; [auto|]. intros Hi. apply IH.
  destruct (frame_shape s s1 Hf) as (? & rs & ? & _ & _ & _ & _ & _ & _ & Hr & _).
  rewrite Hr. apply elem_of_app. now left.
Qed.

(** X4: until it is revealed, a character is not touched by the loop:
    in every state a run reaches, a character that has not been revealed
    is exactly as [prepare_data] left it (not ticked, not visible unless
    it already was). *)
Theorem run_leaves_hidden_characters_alone cs g s0 s i :
  run_init color_at_fraction rain_setup args top (new_effect cs g) = Ok s0 ->
  reaches tick s0 s ->
  i ∉ revealed (trace s) ->
  characters s !! i = characters s0 !! i.
Proof.
  intros Hinit Hreach.
  pose proof (run_init_active_revealed cs g s0 Hinit) as H0.
  clear Hinit. revert H0.
  induction Hreach as [s|s s1 s2 _ Hf Hreach IH]; intros H0 Hi; [reflexivity|].
  pose proof (frame_active_revealed s s1 Hf H0) as H1.
  rewrite IH by assumption. apply frame_untouched; try assumption.
  intros Hin. apply Hi. now apply (reaches_revealed_mono s1 s2).
Qed.

Lemma filter_eq_notin (i : nat) (l : list nat) : i ∉ l -> filter (eq i) l = [].
Proof.
  induction l as [|j l IH]; [reflexivity|].
  rewrite not_elem_of_cons. intros [Hij Hi]. rewrite filter_cons.
  destruct (decide (i = j)); [contradiction|auto].
Qed.

Lemma frame_keeps_dropped s s' i :
  frame tick s = Ok s' -> NoDup (population s) ->
  i ∈ revealed (trace s) -> i ∉ active_chars s ->
  i ∈ revealed (trace s') /\ (i ∉ active_chars s')
  /\ filter (eq i) (ticked (trace s')) = filter (eq i) (ticked (trace s)).
Proof.
  intros Hf Hnd Hrev Hact.
  destruct (frame_shape s s' Hf)
    as (s1 & rs & s2 & Hs1 & _ & Hreveals & _ & _ & Ht & Hr & Ha & _).
  apply stage_next_group_population in Hs1 as (Hpop & Ht1 & _).
  assert (Hrs : i ∉ rs).
  { intros Hin. apply (reveals_pending _ _ _ _ Hreveals) in Hin.
    rewrite <- Hpop in Hnd. unfold population in Hnd. rewrite Ht1 in Hnd.
    apply NoDup_app in Hnd as (_ & Hdisj & _). apply (Hdisj i Hrev).
    apply elem_of_app. now left. }
  assert (Hnot : i ∉ active_chars s ++ rs)
    by (rewrite not_elem_of_app; auto).
  split; [rewrite Hr; apply elem_of_app; now left|]. split.
  - rewrite Ha. intros Hin. apply list_elem_of_filter in Hin as [_ Hin].
    contradiction.
  - rewrite Ht, !ticked_app, ticked_EvReveal, ticked_EvTick. simpl.
    rewrite app_nil_r, filter_app.
    now rewrite (filter_eq_notin i _ Hnot), app_nil_r.
Qed.

(** X5: a character that has been revealed and is no longer on the
    active list never returns to it and is never ticked again, whatever
    its [is_active] flag becomes later. *)
Theorem run_never_reactivates cs g s0 s s' i :
  run_init color_at_fraction rain_setup args top (new_effect cs g) = Ok s0 ->
  reaches tick s0 s ->
  i ∈ revealed (trace s) ->
  i ∉ active_chars s ->
  reaches tick s s' ->
  (i ∉ active_chars s')
  /\ filter (eq i) (ticked (trace s')) = filter (eq i) (ticked (trace s)).
Proof.
  intros Hinit Hreach Hrev Hact Hlater.
  destruct (reaches_population_NoDup cs g s0 s Hinit Hreach) as [_ Hnd].
  clear Hinit Hreach. revert Hnd Hrev Hact.
  induction Hlater as [s|s s1 s2 _ Hf _ IH]; intros Hnd Hrev Hact; [auto|].
  destruct (frame_keeps_dropped s s1 i Hf Hnd Hrev Hact) as (Hrev1 & Hact1 & Hticks).
  rewrite <- Hticks. apply IH; try assumption.
  now rewrite (frame_population _ _ Hf).
Qed.

(** *** What [prepare_data] builds *)

Local Abbreviation group_into key i m :=
  (alter (fun grp : list nat => grp ++ [i]) (key i)
     (match m !! key i with
      | None => <[key i := []]> m
      | Some _ => m
      end)).

Lemma group_into_lookup (key : nat -> Z) (i : nat) (m : gmap Z (list nat)) (r : Z) :
  group_into key i m !! r
  = if decide (key i = r) then Some (default [] (m !! r) ++ [i]) else m !! r.
Proof.
  destruct (decide (key i = r)) as [<-|Hne].
  - rewrite lookup_alter_eq.
    destruct (m !! key i) as [grp|] eqn:Hk; simpl.
    + now rewrite Hk.
    + now rewrite lookup_insert_eq.
  - rewrite lookup_alter_ne by assumption.
    destruct (m !! key i); [reflexivity|]. now rewrite lookup_insert_ne.
Qed.

Lemma foldl_group_into_lookup (key : nat -> Z) (l : list nat)
    (m : gmap Z (list nat)) (r : Z) :
  foldl (fun m i => group_into key i m) m l !! r
  = match m !! r, filter (fun i => key i = r) l with
    | Some grp, f => Some (grp ++ f)
    | None, [] => None
    | None, f => Some f
    end.
Proof.
  revert m. induction l as [|i l IH]; intros m.
  - simpl. destruct (m !! r); [now rewrite app_nil_r|reflexivity].
  - cbn [foldl]. rewrite IH, group_into_lookup, filter_cons.
    destruct (decide (key i = r)) as [Hk|Hk].
    + destruct (m !! r) as [grp|]; simpl; [now rewrite <- app_assoc|reflexivity].
    + reflexivity.
Qed.

Lemma foldl_group_character (l : list nat) s :
  let s' := foldl (fun s i => group_character i s) s l in
  group_by_row s'
  = foldl (fun m i => group_into (row_of s) i m) (group_by_row s) l
  /\ characters s' = characters s.
Proof.
  revert s. induction l as [|i l IH]; intros s; [split; reflexivity|].
  cbn [foldl]. destruct (IH (group_character i s)) as [Hg Hc].
  split; [|now rewrite Hc]. rewrite Hg. reflexivity.
Qed.

(** A stable sort keeps the order of the elements of equal key. *)
Lemma filter_insert_by (key : nat -> Z) (r : Z) (x : nat) (l : list nat) :
  filter (fun i => key i = r) (insert_by key x l)
  = filter (fun i => key i = r) (x :: l).
Proof.
  induction l as [|y l IH]; [reflexivity|]. simpl.
  destruct (decide (key x <= key y)) as [Hle|Hgt]; [reflexivity|].
  rewrite (filter_cons _ y), IH, !(filter_cons _ x), (filter_cons _ y).
  destruct (decide (key x = r)) as [Hx|Hx], (decide (key y = r)) as [Hy|Hy];
    try reflexivity.
  lia.
Qed.

Lemma filter_sorted (key : nat -> Z) (r : Z) (l : list nat) :
  filter (fun i => key i = r) (sorted key l) = filter (fun i => key i = r) l.
Proof.
  induction l as [|x l IH]; [reflexivity|]. simpl.
  now rewrite filter_insert_by, !filter_cons, IH.
Qed.

Lemma prepare_data_shape cs g s' :
  prepare_data color_at_fraction rain_setup args top (new_effect cs g) = Ok s' ->
  pending_chars s' = seq 0 (length cs)
  /\ length (characters s') = length cs
  /\ active_chars s' = [] /\ trace s' = []
  /\ forall r,
       group_by_row s' !! r
       = match filter (fun i => row_of s' i = r) (seq 0 (length cs)) with
         | [] => None
         | grp => Some grp
         end.
Proof.
  unfold prepare_data. intros H.
  apply bind_Ok in H as (s1 & H1 & H).
  apply bind_Ok in H as (s2 & H2 & [= <-]).
  apply final_colors_spec in H1 as (Hc1 & Hp1 & Ha1 & Hg1 & Ht1 & _).
  simpl in Hc1, Hp1, Ha1, Hg1, Ht1.
  pose proof H2 as H2'.
  apply configure_characters_spec in H2' as (Hp2 & Hc2 & Ha2 & Hg2 & Ht2).
  assert (Hpend : pending_chars s2 = seq 0 (length cs)).
  { rewrite Hp2, Hp1. unfold get_characters. now rewrite Hc1. }
  pose proof (group_characters_spec (sorted (row_of s2) (pending_chars s2)) s2)
    as (_ & Hc3 & Hp3 & Ha3 & Ht3).
  pose proof (foldl_group_character (sorted (row_of s2) (pending_chars s2)) s2)
    as [Hg3 _].
  cbv zeta in Hc3, Hp3, Ha3, Ht3, Hg3.
  set (s3 := foldl (fun s i => group_character i s) s2
               (sorted (row_of s2) (pending_chars s2))) in *.
  rewrite Hp3, Ha3, Ht3, Hc3, Hc2, Hc1, Ha2, Ha1, Ht2, Ht1.
  repeat (split; [assumption || reflexivity|]).
  intros r. rewrite Hg3, foldl_group_into_lookup, Hg2, Hg1.
  rewrite lookup_empty, filter_sorted, Hpend.
  erewrite (list_filter_iff (fun i => row_of s3 i = r)); [reflexivity|].
  intros i. unfold row_of. now rewrite Hc3.
Qed.

(** X6: [prepare_data] on a new effect stages every character under
    its row: the staging map has a key for a row exactly when a
    character has that row, and the group under it lists the characters
    of the row in the order of [terminal.get_characters()]; all
    characters are left on the pending list, nothing is active and no
    event has happened. *)
Theorem prepare_data_groups_by_row cs g s' :
  prepare_data color_at_fraction rain_setup args top (new_effect cs g) = Ok s' ->
  (forall r grp,
     group_by_row s' !! r = Some grp
     <-> grp <> [] /\ grp = filter (fun i => row_of s' i = r) (seq 0 (length cs)))
  /\ pending_chars s' = seq 0 (length cs)
  /\ active_chars s' = []
  /\ trace s' = [].
Proof.
  intros H. apply prepare_data_shape in H as (Hp & _ & Ha & Ht & Hg).
  split; [|auto]. intros r grp. rewrite Hg.
  destruct (filter _ _) as [|i f]; split.
  - discriminate.
  - intros [Hne ->]. contradiction.
  - intros [= <-]. split; [discriminate|reflexivity].
  - now intros [_ ->].
Qed.

Lemma run_init_groups cs g s0 :
  run_init color_at_fraction rain_setup args top (new_effect cs g) = Ok s0 ->
  forall r,
    group_by_row s0 !! r
    = match filter (fun i => row_of s0 i = r) (seq 0 (length cs)) with
      | [] => None
      | grp => Some grp
      end.
Proof.
  unfold run_init. intros H. apply bind_Ok in H as (s' & H & [= <-]).
  apply prepare_data_shape in H as (_ & _ & _ & _ & Hg). exact Hg.
Qed.

(** *** Progress of the reveals *)

Lemma stage_next_group_min s s1 :
  stage_next_group s = Ok s1 ->
  (s1 = s /\ (pending_chars s <> [] \/ group_by_row s = ∅))
  \/ (pending_chars s = [] /\ group_by_row s <> ∅
      /\ exists k grp,
           group_by_row s !! k = Some grp
           /\ (forall k', is_Some (group_by_row s !! k') -> k <= k')
           /\ s1 = set_group_by_row (delete k (group_by_row s))
                     (set_pending_chars grp s)).
Proof.
  intros H.
  destruct (decide (pending_chars s = [])) as [Hp|Hp];
    [destruct (decide (group_by_row s = ∅)) as [Hg|Hg]|].
  - left. rewrite stage_next_group_skip in H by (now right).
    injection H as <-. auto.
  - right. destruct (stage_next_group_pop s Hp Hg) as (k & grp & Hk & Hmin & Hs).
    rewrite Hs in H. injection H as <-. eauto 10.
  - left. rewrite stage_next_group_skip in H by (now left).
    injection H as <-. auto.
Qed.

Lemma frame_groups_nonempty s s' :
  frame tick s = Ok s' -> groups_nonempty s -> groups_nonempty s'.
Proof.
  intros Hf Hne.
  destruct (frame_shape s s' Hf)
    as (s1 & rs & s2 & Hs1 & _ & _ & _ & _ & _ & _ & _ & _ & _ & Hg).
  intros r grp. rewrite Hg.
  apply stage_next_group_min in Hs1
    as [[-> _]|(_ & _ & k & grp' & _ & _ & ->)]; [apply Hne|].
  simpl. intros Hl. apply lookup_delete_Some in Hl as [_ Hl]. now apply (Hne r).
Qed.

Lemma run_init_groups_nonempty cs g s0 :
  run_init color_at_fraction rain_setup args top (new_effect cs g) = Ok s0 ->
  groups_nonempty s0.
Proof.
  intros H r grp. rewrite (run_init_groups cs g s0 H).
  destruct (filter _ _); [discriminate|]. now intros [= <-].
Qed.

(** X7: while a character is left to reveal, every turn of the loop
    reveals at least one and at most three: a run on [n] characters has
    revealed them all after [n] turns at the latest. *)
Theorem frame_reveals_one_to_three cs g s0 s s' :
  run_init color_at_fraction rain_setup args top (new_effect cs g) = Ok s0 ->
  reaches tick s0 s ->
  frame tick s = Ok s' ->
  (length (revealed (trace s)) <= length cs)%nat
  /\ (length (revealed (trace s')) <= length (revealed (trace s)) + 3)%nat
  /\ ((length (revealed (trace s)) < length cs)%nat ->
      (length (revealed (trace s)) < length (revealed (trace s')))%nat).
Proof.
  intros Hinit Hreach Hf.
  destruct (reaches_population_NoDup cs g s0 s Hinit Hreach) as [Hpop _].
  assert (Hne : groups_nonempty s).
  { apply (reaches_invariant groups_nonempty s0 s); [|assumption|].
    - intros a b Ha _ Hab. now apply (frame_groups_nonempty a b).
    - now apply (run_init_groups_nonempty cs g). }
  apply Permutation_length in Hpop. unfold population in Hpop.
  rewrite !length_app, length_seq in Hpop.
  destruct (frame_shape s s' Hf)
    as (s1 & rs & s2 & Hs1 & _ & _ & Hlen & Hrs & _ & Hr & _).
  rewrite Hr, length_app. split; [lia|]. split; [lia|].
  intros Hleft.
  assert (rs <> []); [|destruct rs; [congruence|simpl; lia]].
  apply Hrs.
  apply stage_next_group_min in Hs1
    as [[-> Hskip]|(Hp & _ & k & grp & Hk & _ & ->)].
  - destruct Hskip as [Hp|Hg]; [assumption|].
    intros Hp. unfold staged in Hpop. rewrite Hg, map_to_list_empty, Hp in Hpop.
    simpl in Hpop. lia.
  - simpl. now apply (Hne k).
Qed.

(** *** Bottom row first *)

Lemma frame_bottom_up (key : nat -> Z) s s' :
  frame tick s = Ok s' -> bottom_up key s -> bottom_up key s'.
Proof.
  intros Hf (Hkey & Hsorted & Hle & Hsame & Hbelow).
  destruct (frame_shape s s' Hf)
    as (s1 & rs & s2 & Hs1 & _ & Hrev & _ & _ & _ & Hr & _ & _ & Hp & Hg).
  assert (H1 : bottom_up key s1 /\ trace s1 = trace s).
  { apply stage_next_group_min in Hs1
      as [[-> _]|(Hp0 & _ & k & grp & Hk & Hmin & ->)].
    - split; [|reflexivity]. unfold bottom_up. auto.
    - split; [|reflexivity]. unfold bottom_up. simpl. repeat split.
      + intros r grp' i Hl. apply lookup_delete_Some in Hl as [_ Hl].
        now apply Hkey.
      + assumption.
      + intros i j Hi Hj. rewrite (Hkey k grp j Hk Hj).
        apply Z.lt_le_incl, Hbelow; [|eauto].
        apply elem_of_app. now left.
      + intros i j Hi Hj.
        now rewrite (Hkey k grp i Hk Hi), (Hkey k grp j Hk Hj).
      + intros i r Hi Hr'. apply lookup_delete_is_Some in Hr' as [Hne Hr'].
        apply elem_of_app in Hi as [Hi|Hi].
        * apply Hbelow; [|assumption]. apply elem_of_app. now left.
        * rewrite (Hkey k grp i Hk Hi). specialize (Hmin r Hr'). lia. }
  clear Hkey Hsorted Hle Hsame Hbelow.
  destruct H1 as [(Hkey & Hsorted & Hle & Hsame & Hbelow) Ht1].
  destruct Hrev as (_ & _ & Hperm & Hg2 & _).
  assert (Hin_rs : forall i, i ∈ rs -> i ∈ pending_chars s1)
    by (intros i Hi; rewrite Hperm; apply elem_of_app; now left).
  assert (Hin_p : forall i, i ∈ pending_chars s2 -> i ∈ pending_chars s1)
    by (intros i Hi; rewrite Hperm; apply elem_of_app; now right).
  rewrite Ht1 in *.
  unfold bottom_up. rewrite Hr, Hp, Hg. repeat split.
  - exact Hkey.
  - rewrite fmap_app. apply StronglySorted_app_2; [|assumption|].
    + intros x y Hx Hy.
      apply list_elem_of_fmap in Hx as (i & -> & Hi).
      apply list_elem_of_fmap in Hy as (j & -> & Hj). auto.
    + assert (Hconst : forall i j, i ∈ rs -> j ∈ rs -> key i = key j) by auto.
      clear -Hconst. induction rs as [|i rs IH]; [constructor|].
      rewrite fmap_cons. constructor.
      * apply IH. intros a b Ha Hb. apply Hconst; apply elem_of_cons; now right.
      * apply Forall_forall. intros y Hy.
        apply list_elem_of_fmap in Hy as (j & -> & Hj).
        rewrite (Hconst i j); [lia| |]; apply elem_of_cons; auto.
  - intros i j Hi Hj. apply elem_of_app in Hi as [Hi|Hi]; [auto|].
    rewrite (Hsame i j); [lia| |]; auto.
  - auto.
  - intros i r Hi Hr'. apply Hbelow; [|assumption].
    rewrite <- app_assoc in Hi. apply elem_of_app in Hi as [Hi|Hi].
    + apply elem_of_app. now left.
    + apply elem_of_app. right. apply elem_of_app in Hi as [Hi|Hi]; auto.
Qed.

Lemma run_init_bottom_up cs g s0 :
  run_init color_at_fraction rain_setup args top (new_effect cs g) = Ok s0 ->
  bottom_up (row_of s0) s0.
Proof.
  intros H. pose proof (run_init_groups cs g s0 H) as Hg.
  apply run_init_spec in H as (Ht & Hp & _).
  unfold bottom_up. rewrite Ht, Hp. simpl. repeat split.
  - intros r grp i Hl Hi. rewrite Hg in Hl.
    destruct (filter _ _) as [|j f] eqn:Hf; [discriminate|].
    injection Hl as <-. rewrite <- Hf in Hi.
    now apply list_elem_of_filter in Hi as [Hi _].
  - constructor.
  - intros i j Hi. now apply elem_of_nil in Hi.
  - intros i j Hi. now apply elem_of_nil in Hi.
  - intros i r Hi. now apply elem_of_nil in Hi.
Qed.

(** X8: the rain falls on the bottom row first: in a run the
    characters are revealed in the order of their rows, lowest first, so
    that a character of a row is revealed only when every character of
    every lower row has been; the order within a row is the random
    part.  The row of a character is the one it was staged under. *)
Theorem run_reveals_bottom_row_first cs g s0 s :
  run_init color_at_fraction rain_setup args top (new_effect cs g) = Ok s0 ->
  reaches tick s0 s ->
  StronglySorted Z.le (row_of s0 <$> revealed (trace s))
  /\ forall i j,
       i ∈ revealed (trace s) -> (j < length cs)%nat -> j ∉ revealed (trace s) ->
       row_of s0 i <= row_of s0 j.
Proof.
  intros Hinit Hreach.
  assert (Hinv : bottom_up (row_of s0) s).
  { apply (reaches_invariant (bottom_up (row_of s0)) s0 s); [|assumption|].
    - intros a b Ha _ Hab. now apply (frame_bottom_up _ a b).
    - now apply (run_init_bottom_up cs g). }
  destruct (reaches_population_NoDup cs g s0 s Hinit Hreach) as [Hpop _].
  destruct Hinv as (Hkey & Hsorted & Hle & _ & Hbelow).
  split; [assumption|]. intros i j Hi Hj Hnot.
  assert (Hin : j ∈ population s).
  { rewrite Hpop. apply elem_of_seq. lia. }
  unfold population in Hin. apply elem_of_app in Hin as [Hin|Hin]; [contradiction|].
  apply elem_of_app in Hin as [Hin|Hin]; [auto|].
  unfold staged in Hin. apply list_elem_of_join in Hin as (grp & Hj' & Hgrp).
  apply list_elem_of_fmap in Hgrp as ([r grp'] & -> & Hgrp).
  apply elem_of_map_to_list in Hgrp. simpl in Hj'.
  rewrite (Hkey r grp' j Hgrp Hj'). apply Z.lt_le_incl, Hbelow; [|eauto].
  apply elem_of_app. now left.
Qed.

(** *** When [prepare_data] raises *)


Lemma final_color_of_ok (i : nat) s :
  top <> 0 ->
  final_color_of color_at_fraction args top i s
  = Ok (set_character_final_color_map
          (<[i := color_at_fraction (final_gradient_stops args)
                    (final_gradient_steps args) (row_of s i) top]>
             (character_final_color_map s)) s).
Proof. intros Htop. unfold final_color_of. now destruct (decide (top = 0)). Qed.

Lemma final_colors_ok (l : list nat) s :
  top <> 0 ->
  exists s1,
    for_each (final_color_of color_at_fraction args top) l s = Ok s1
    /\ forall i, i ∈ l \/ is_Some (character_final_color_map s !! i) ->
         is_Some (character_final_color_map s1 !! i).
Proof.
  intros Htop. revert s. induction l as [|j l IH]; intros s; cbn [for_each].
  - exists s. split; [reflexivity|]. intros i [Hi|Hi]; [|assumption].
    now apply elem_of_nil in Hi.
  - rewrite final_color_of_ok by assumption. simpl.
    match goal with |- context [for_each _ l ?s1] =>
      destruct (IH s1) as (s2 & Hs2 & Hmap)
    end.
    exists s2. split; [assumption|]. intros i Hi. apply Hmap. simpl.
    destruct (decide (i = j)) as [->|Hij].
    + right. rewrite lookup_insert_eq. eauto.
    + rewrite lookup_insert_ne by congruence.
      destruct Hi as [Hi|Hi]; [|now right].
      apply elem_of_cons in Hi as [?|?]; [contradiction|now left].
Qed.

Lemma choice_ok {A} (l : list A) (g : G) :
  l <> [] -> exists x g', choice l g = Ok (x, g') /\ x ∈ l.
Proof.
  intros Hl. unfold choice. destruct l as [|a l]; [congruence|].
  pose proof (randbelow_lt (length (a :: l)) g) as Hlt.
  destruct (randbelow (length (a :: l)) g) as [k g'].
  destruct (lookup_lt_is_Some_2 (a :: l) k) as [x Hx]; [apply Hlt; simpl; lia|].
  rewrite Hx. exists x, g'. split; [reflexivity|].
  now apply list_elem_of_lookup_2 in Hx.
Qed.

Lemma configure_character_ok (i : nat) s :
  rain_colors args <> [] -> rain_symbols args <> [] ->
  is_Some (character_final_color_map s !! i) ->
  exists s', configure_character rain_setup args top i s = Ok s'
             /\ character_final_color_map s' = character_final_color_map s.
Proof.
  intros Hc Hs [final Hfinal]. unfold configure_character.
  destruct (choice_ok (rain_colors args) (gen s) Hc) as (c & g1 & -> & _). simpl.
  destruct (choice_ok (rain_symbols args) g1 Hs) as (sym & g2 & -> & _). simpl.
  rewrite Hfinal. simpl. destruct (uniform _ _ g2) as [speed g3]. eauto.
Qed.

Lemma configure_characters_ok (l : list nat) s :
  rain_colors args <> [] -> rain_symbols args <> [] ->
  (forall i, i ∈ l -> is_Some (character_final_color_map s !! i)) ->
  exists s', for_each (configure_character rain_setup args top) l s = Ok s'.
Proof.
  intros Hc Hs. revert s. induction l as [|i l IH]; intros s Hmap;
    cbn [for_each]; [eauto|].
  destruct (configure_character_ok i s Hc Hs) as (s1 & -> & Hsame);
    [apply Hmap, elem_of_cons; now left|].
  simpl. apply IH. intros j Hj. rewrite Hsame. apply Hmap, elem_of_cons. now right.
Qed.



Lemma prepare_data_ok s :
  top <> 0 -> rain_colors args <> [] -> rain_symbols args <> [] ->
  exists s', prepare_data color_at_fraction rain_setup args top s = Ok s'.
Proof.
  intros Htop Hc Hs. unfold prepare_data, get_characters.
  destruct (final_colors_ok (seq 0 (length (characters s))) s Htop)
    as (s1 & Hs1 & Hmap).
  rewrite Hs1. simpl. apply final_colors_spec in Hs1 as (Hc1 & _).
  destruct (configure_characters_ok (seq 0 (length (characters s1))) s1 Hc Hs)
    as (s2 & ->).
  - intros i Hi. apply Hmap. left. now rewrite <- Hc1.
  - simpl. eauto.
Qed.


End RainFacts.

(** ** More on the terminal operations and the entry point *)

Section CellsFacts.
Import TerminalOperations Cells.
Context {E : Type}.

Lemma cell_of_inj (a b : Coord) : cell_of a = cell_of b -> a = b.
Proof. destruct a, b. unfold cell_of. simpl. now intros [= -> ->]. Qed.

Lemma paint_print_character (c : EffectCharacter E) (clear_last : bool)
    (screen : gmap (Z * Z) string) :
  paint (cell_writes (print_character c clear_last)) screen
  = if clear_last
    then <[cell_of (last_coord c) := " "]>
           (<[cell_of (current_coord c) := symbol c]> screen)
    else <[cell_of (current_coord c) := symbol c]> screen.
Proof. now destruct clear_last. Qed.

(** X11: [print_character] writes the symbol first and the blank
    second.  Without [clear_last] only the cell at [current_coord]
    changes.  With [clear_last], a character that has moved shows at
    [current_coord] and its old cell is blank; a character that has not
    moved is wiped out by its own clear, and its cell ends up blank.  No
    other cell changes. *)
Theorem print_character_on_screen (c : EffectCharacter E)
    (screen : gmap (Z * Z) string) :
  let shown := paint (cell_writes (print_character c false)) screen in
  let cleared := paint (cell_writes (print_character c true)) screen in
  shown !! cell_of (current_coord c) = Some (symbol c)
  /\ (forall a, a <> cell_of (current_coord c) -> shown !! a = screen !! a)
  /\ cleared !! cell_of (last_coord c) = Some " "
  /\ (current_coord c <> last_coord c ->
        cleared !! cell_of (current_coord c) = Some (symbol c))
  /\ (current_coord c = last_coord c ->
        cleared !! cell_of (current_coord c) = Some " ")
  /\ (forall a, a <> cell_of (current_coord c) -> a <> cell_of (last_coord c) ->
        cleared !! a = screen !! a).
Proof.
  cbv zeta. rewrite !paint_print_character. repeat split.
  - apply lookup_insert_eq.
  - intros a Ha. now apply lookup_insert_ne.
  - apply lookup_insert_eq.
  - intros Hmoved. rewrite lookup_insert_ne, lookup_insert_eq; [reflexivity|].
    intros Heq. apply cell_of_inj in Heq. congruence.
  - intros ->. apply lookup_insert_eq.
  - intros a Ha Hb. now rewrite !lookup_insert_ne.
Qed.
End CellsFacts.

Section MoreInputFacts.
Import TerminalOperations Main.
Context {Args : Type}.
Variable parse_args : list string -> option Args.

(** The piped input can be read once: after a call of
    [get_piped_input] a second call returns the empty string, on a pipe
    because the first call has read it to the end, on a terminal
    because nothing is ever read. *)
Theorem get_piped_input_twice (stdin : Stdin) :
  (get_piped_input (get_piped_input stdin).2).1 = ""
  /\ isatty (get_piped_input stdin).2 = isatty stdin
  /\ (isatty stdin = false -> unread (get_piped_input stdin).2 = "")
  /\ (isatty stdin = true -> (get_piped_input stdin).2 = stdin).
Proof.
  destruct stdin as [[|] data]; simpl; repeat split;
    first [reflexivity | discriminate].
Qed.

End MoreInputFacts.

Section DefaultsFacts.
Import Rain RainDefaults.
Context {Float Easing E G : Type} `{!Random G Float}.
Variable color_at_fraction : list string -> list Z -> Z -> Z -> string.
Variable rain_setup :
  string -> string -> string -> Z -> Float -> Easing ->
  EffectCharacter E -> EffectCharacter E.
Variable speed_low speed_high : Float.
Variable in_quart : Easing.
Variable top : Z.

(** X13: with the default arguments of [RainEffectArgs] the lists of
    rain colours and rain symbols are not empty, so [prepare_data]
    returns on every terminal whose top row is not 0, whatever the
    generator yields. *)
Theorem prepare_data_with_defaults (s : State string E G) :
  top <> 0 ->
  exists s',
    prepare_data color_at_fraction rain_setup
      (default_args speed_low speed_high in_quart) top s = Ok s'.
Proof. intros Htop. now apply prepare_data_ok. Qed.
End DefaultsFacts.

(** ** The properties on the small instance *)

Section DemoFacts.
Import TerminalOperations Canvas Main Rain Demo.

Lemma tape_same_draws_hd (g1 g2 : Tape) :
  tape_same_draws g1 g2 -> hd 0%nat g1 = hd 0%nat g2.
Proof. intros H. specialize (H 0%nat). now destruct g1, g2. Qed.

Lemma tape_same_draws_tl (g1 g2 : Tape) :
  tape_same_draws g1 g2 -> tape_same_draws (tl g1) (tl g2).
Proof.
  intros H k. specialize (H (S k)).
  destruct g1, g2; simpl in *; try assumption; now destruct k.
Qed.

Lemma tape_same_draws_randbelow (n : nat) (g1 g2 : Tape) :
  tape_same_draws g1 g2 ->
  (randbelow n g1).1 = (randbelow n g2).1
  /\ tape_same_draws (randbelow n g1).2 (randbelow n g2).2.
Proof.
  intros H. unfold randbelow, tape_random, tape_randbelow. cbn [fst snd].
  rewrite (tape_same_draws_hd _ _ H). split; [reflexivity|].
  now apply tape_same_draws_tl.
Qed.

Lemma tape_same_draws_uniform (a b : Z) (g1 g2 : Tape) :
  tape_same_draws g1 g2 ->
  (uniform a b g1).1 = (uniform a b g2).1
  /\ tape_same_draws (uniform a b g1).2 (uniform a b g2).2.
Proof.
  intros H. unfold uniform, tape_random, tape_uniform. cbn [fst snd].
  rewrite (tape_same_draws_hd _ _ H). split; [reflexivity|].
  now apply tape_same_draws_tl.
Qed.

Lemma tape_same_draws_padding : tape_same_draws [] [0; 0]%nat.
Proof. intros [|[|[|n]]]; reflexivity. Qed.

Lemma demo_init_ok :
  run_init demo_color_at demo_rain_setup demo_args demo_top
    (new_effect demo_characters []) = Ok (demo_init []).
Proof. vm_compute. reflexivity. Qed.

Lemma demo_frame_ok (n : nat) :
  (n < 3)%nat ->
  loop_condition (demo_after n []) = true
  /\ frame demo_tick (demo_after n []) = Ok (demo_after (S n) []).
Proof.
  intros Hn. destruct n as [|[|[|n]]]; [| | |lia]; split; vm_compute; reflexivity.
Qed.

Lemma demo_reaches : reaches demo_tick (demo_init []) (demo_after 3 []).
Proof.
  destruct (demo_frame_ok 0) as [C0 F0]; [lia|].
  destruct (demo_frame_ok 1) as [C1 F1]; [lia|].
  destruct (demo_frame_ok 2) as [C2 F2]; [lia|].
  eapply reaches_frame; [exact C0|exact F0|].
  eapply reaches_frame; [exact C1|exact F1|].
  eapply reaches_frame; [exact C2|exact F2|].
  apply reaches_here.
Qed.

(** The demo run ends after three frames, with the three collections
    empty. *)
Lemma run_loop_ends_when_all_empty_witness :
  run_loop demo_tick 3 (demo_init []) = Some (Ok (demo_after 3 []))
  /\ group_by_row (demo_after 3 []) = ∅
  /\ pending_chars (demo_after 3 []) = []
  /\ active_chars (demo_after 3 []) = [].
Proof.
  assert (Hrun : run_loop demo_tick 3 (demo_init [])
                 = Some (Ok (demo_after 3 [])))
    by (vm_compute; reflexivity).
  split; [exact Hrun|].
  exact (proj1 (run_loop_ends_when_all_empty demo_color_at demo_rain_setup
                  demo_tick demo_args demo_top (demo_init []))
               3%nat (demo_after 3 []) Hrun).
Defined.

(** A rendering pass over the one moved character. *)
Lemma render_pass_moved_character_witness :
  exists ops,
    render_pass [demo_moved] {[0%nat := mkRendered (mkCoord 1 4) "o"]} !! 0%nat
    = Some (0%nat, ops)
    /\ (forall j ops',
          render_pass [demo_moved] {[0%nat := mkRendered (mkCoord 1 4) "o"]} !! j
          = Some (0%nat, ops') -> j = 0%nat)
    /\ ops = print_character demo_moved true
    /\ cell_writes ops = [mkCellWrite "o" 3 1; mkCellWrite " " 4 1].
Proof.
  apply (render_pass_moved_character [demo_moved]
           {[0%nat := mkRendered (mkCoord 1 4) "o"]} 0 demo_moved
           (mkRendered (mkCoord 1 4) "o")).
  - reflexivity.
  - reflexivity.
  - reflexivity.
  - reflexivity.
  - discriminate.
Defined.

(** The empty tape and a tape of two zeros replay the same draws, and
    the two runs agree. *)
Lemma run_determined_by_draws_witness :
  tape_same_draws [] [0; 0]%nat
  /\ outcome (demo_run 20 []) = outcome (demo_run 20 [0; 0]%nat).
Proof.
  split; [exact tape_same_draws_padding|].
  exact (run_determined_by_draws demo_color_at demo_rain_setup demo_tick
           demo_args demo_top tape_same_draws tape_same_draws_randbelow
           tape_same_draws_uniform demo_characters [] [0; 0]%nat 20
           tape_same_draws_padding).
Defined.

(** C3, as stated, fails: the effect takes the terminal and its
    arguments and no seed, and two runs on the same characters and the
    same arguments reveal the characters in different orders when the
    state of the process-wide generator differs. *)
Lemma run_not_determined_by_arguments :
  revealed (demo_trace 20 []) = [2; 0; 1]%nat
  /\ revealed (demo_trace 20 demo_tape) = [2; 1; 0]%nat
  /\ outcome (demo_run 20 []) <> outcome (demo_run 20 demo_tape).
Proof.
  split; [vm_compute; reflexivity|]. split; [vm_compute; reflexivity|].
  intros H.
  assert (Ht : demo_trace 20 [] = demo_trace 20 demo_tape).
  { unfold demo_trace. unfold outcome in H.
    destruct (demo_run 20 []) as [[s1|e1]|], (demo_run 20 demo_tape) as [[s2|e2]|];
      try discriminate H; try reflexivity.
    now injection H. }
  vm_compute in Ht. discriminate Ht.
Qed.

(** The second frame of the demo run. *)
Lemma frame_drops_inactive_characters_witness :
  exists s1 s2,
    stage_next_group (demo_after 1 []) = Ok s1 /\ reveal s1 = Ok s2
    /\ ticked (trace (demo_after 2 []))
       = ticked (trace (demo_after 1 [])) ++ active_chars s2
    /\ active_chars (demo_after 2 [])
       = filter (fun i => is_active_of (demo_after 2 []) i = true) (active_chars s2)
    /\ (forall i, i ∈ active_chars (demo_after 2 [])
                  <-> i ∈ active_chars s2 /\ is_active_of (demo_after 2 []) i = true)
    /\ (NoDup (active_chars s2) ->
        forall i, characters (demo_after 2 []) !! i
                  = if decide (i ∈ active_chars s2)
                    then demo_tick <$> characters s2 !! i
                    else characters s2 !! i).
Proof.
  apply (frame_drops_inactive_characters demo_tick (demo_after 1 [])
           (demo_after 2 [])).
  vm_compute. reflexivity.
Defined.

(** The first frame of the demo run stages the bottom row. *)
Lemma stage_next_group_lowest_row_witness :
  exists k grp,
    group_by_row (demo_init []) !! k = Some grp
    /\ (forall k', is_Some (group_by_row (demo_init []) !! k') -> k <= k')
    /\ stage_next_group (demo_init [])
       = Ok (set_group_by_row (delete k (group_by_row (demo_init [])))
               (set_pending_chars grp (demo_init [])))
    /\ frame demo_tick (demo_init [])
       = (s2 ← reveal (set_group_by_row (delete k (group_by_row (demo_init [])))
                         (set_pending_chars grp (demo_init [])));
          Ok (terminal_print (drop_inactive (animate_chars demo_tick s2)))).
Proof.
  apply (stage_next_group_lowest_row demo_tick (demo_init [])).
  - vm_compute. reflexivity.
  - intros H.
    assert (H1 : group_by_row (demo_init []) !! 1 = None)
      by (rewrite H; apply lookup_empty).
    vm_compute in H1. discriminate H1.
Defined.

(** The third frame of the demo run: one reveal, three ticks. *)
Lemma frame_ticks_before_print_witness :
  exists rs : list nat,
    trace (demo_after 3 [])
    = trace (demo_after 2 []) ++ (EvReveal <$> rs)
        ++ (EvTick <$> (active_chars (demo_after 2 []) ++ rs)) ++ [EvPrint]
    /\ (forall k i, (active_chars (demo_after 2 []) ++ rs) !! k = Some i ->
          trace (demo_after 3 [])
            !! (length (trace (demo_after 2 [])) + length rs + k)%nat
          = Some (EvTick i))
    /\ trace (demo_after 3 [])
         !! (length (trace (demo_after 2 [])) + length rs
             + length (active_chars (demo_after 2 []) ++ rs))%nat
       = Some EvPrint
    /\ length (trace (demo_after 3 []))
       = S (length (trace (demo_after 2 [])) + length rs
            + length (active_chars (demo_after 2 []) ++ rs))
    /\ characters (demo_after 3 [])
       = foldl (fun cs i => alter demo_tick i cs)
           (foldl (fun cs i => alter (set_visible true) i cs)
              (characters (demo_after 2 [])) rs)
           (active_chars (demo_after 2 []) ++ rs)
    /\ forall (n m : nat) (i : nat),
         (trace (demo_after 3 []) !! n = Some (EvTick i) ->
          (length (trace (demo_after 2 [])) <= n)%nat ->
          trace (demo_after 3 []) !! m = Some EvPrint ->
          (length (trace (demo_after 2 [])) <= m)%nat ->
          (n < m)%nat).
Proof.
  apply (frame_ticks_before_print demo_tick (demo_after 2 []) (demo_after 3 [])).
  vm_compute. reflexivity.
Defined.

(** An empty pipe, with an accepted command line. *)
Lemma main_runs_effect_only_on_input_witness :
  actions (main demo_parse_args ["rain"] (mkStdin false ""))
  = [Print "NO INPUT."]
  /\ exit (main demo_parse_args ["rain"] (mkStdin false "")) = Returned.
Proof.
  exact (proj2 (proj1 (main_runs_effect_only_on_input demo_parse_args ["rain"]
                         (mkStdin false "")) eq_refl) "rain" eq_refl).
Defined.

(** The whole demo run. *)
Lemma run_reveals_each_character_once_witness :
  NoDup (revealed (trace (demo_after 3 [])))
  /\ revealed (trace (demo_after 3 [])) ++ pending_chars (demo_after 3 [])
     ++ staged (demo_after 3 []) ≡ₚ seq 0 (length demo_characters).
Proof.
  exact (run_reveals_each_character_once demo_color_at demo_rain_setup
           demo_tick demo_args demo_top demo_characters [] (demo_init [])
           (demo_after 3 []) demo_init_ok demo_reaches).
Defined.

(** A terminal, and a pipe that holds two characters. *)
Lemma get_piped_input_tty_or_pipe_witness :
  get_piped_input (mkStdin false "hi") = ("hi", mkStdin false "")
  /\ get_piped_input (mkStdin true "") = ("", mkStdin true "").
Proof.
  split.
  - exact (proj1 (get_piped_input_tty_or_pipe demo_parse_args
                    (mkStdin false "hi")) eq_refl).
  - exact (proj1 (proj2 (get_piped_input_tty_or_pipe demo_parse_args
                           (mkStdin true "")) eq_refl)).
Defined.

(** In the demo a character stays active for as many ticks as its
    engine counts. *)
Lemma demo_tick_life (c : Char) :
  is_active (demo_tick c) = true -> (engine (demo_tick c) < engine c)%nat.
Proof.
  simpl. intros H. apply bool_decide_eq_true in H.
  destruct (engine c); simpl in *; [congruence|lia].
Qed.

Lemma run_terminates_witness :
  workload engine (demo_init []) = 11%nat
  /\ exists s',
       demo_run 11 [] = Some (Ok s')
       /\ group_by_row s' = ∅ /\ pending_chars s' = [] /\ active_chars s' = []
       /\ revealed (trace s') ≡ₚ seq 0 (length demo_characters).
Proof.
  assert (Hw : workload engine (demo_init []) = 11%nat)
    by (vm_compute; reflexivity).
  split; [exact Hw|].
  apply (proj2 (proj2 (run_terminates demo_color_at demo_rain_setup demo_tick
                         demo_args demo_top engine demo_tick_life
                         (fun _ _ => eq_refl) demo_characters [])
                  (demo_init []) demo_init_ok) 11%nat).
  vm_compute. lia.
Defined.
End DemoFacts.

(** ** More properties on the small instance *)

Section MoreDemoFacts.
Import TerminalOperations Cells Main Rain RainDefaults Schedule Demo DemoMore.

Lemma demo_tape_init_ok :
  run_init demo_color_at demo_rain_setup demo_args demo_top
    (new_effect demo_characters demo_tape) = Ok (demo_init demo_tape).
Proof. vm_compute. reflexivity. Qed.

Lemma demo_tape_frame_ok (n : nat) :
  (n < 4)%nat ->
  loop_condition (demo_after n demo_tape) = true
  /\ frame demo_tick (demo_after n demo_tape) = Ok (demo_after (S n) demo_tape).
Proof.
  intros Hn. destruct n as [|[|[|[|n]]]]; [| | | |lia]; split;
    vm_compute; reflexivity.
Qed.

Lemma demo_tape_reaches (n m : nat) :
  (n + m <= 4)%nat ->
  reaches demo_tick (demo_after n demo_tape) (demo_after (n + m) demo_tape).
Proof.
  revert n. induction m as [|m IH]; intros n Hn.
  - rewrite Nat.add_0_r. apply reaches_here.
  - destruct (demo_tape_frame_ok n) as [Hc Hf]; [lia|].
    eapply reaches_frame; [exact Hc|exact Hf|].
    replace (n + S m)%nat with (S n + m)%nat by lia. apply IH. lia.
Qed.

Lemma demo_prepared_ok :
  prepare_data demo_color_at demo_rain_setup demo_args demo_top
    (new_effect demo_characters []) = Ok demo_prepared.
Proof. vm_compute. reflexivity. Qed.

(** The second frame on [demo_tape]: one reveal, two ticks. *)
Lemma frame_reveals_then_ticks_all_witness :
  exists rs : list nat,
    (length rs <= 3)%nat
    /\ trace (demo_after 2 demo_tape)
       = trace (demo_after 1 demo_tape) ++ (EvReveal <$> rs)
           ++ (EvTick <$> (active_chars (demo_after 1 demo_tape) ++ rs))
           ++ [EvPrint]
    /\ active_chars (demo_after 2 demo_tape)
       = filter (fun i => is_active_of (demo_after 2 demo_tape) i = true)
           (active_chars (demo_after 1 demo_tape) ++ rs).
Proof.
  apply (frame_reveals_then_ticks_all demo_tick (demo_after 1 demo_tape)
           (demo_after 2 demo_tape)).
  exact (proj2 (demo_tape_frame_ok 1 ltac:(lia))).
Defined.

Lemma run_ticks_only_revealed_characters_witness :
  (forall n i, trace (demo_after 4 demo_tape) !! n = Some (EvTick i) ->
     exists m, (m < n)%nat
               /\ trace (demo_after 4 demo_tape) !! m = Some (EvReveal i))
  /\ active_chars (demo_after 4 demo_tape)
       `sublist_of` revealed (trace (demo_after 4 demo_tape))
  /\ NoDup (active_chars (demo_after 4 demo_tape)).
Proof.
  exact (run_ticks_only_revealed_characters demo_color_at demo_rain_setup
           demo_tick demo_args demo_top demo_characters demo_tape
           (demo_init demo_tape) (demo_after 4 demo_tape)
           demo_tape_init_ok (demo_tape_reaches 0 4 ltac:(lia))).
Defined.

(** After two frames on [demo_tape] the first character is still
    hidden, and as [prepare_data] left it. *)
Lemma run_leaves_hidden_characters_alone_witness :
  characters (demo_after 2 demo_tape) !! 0%nat
  = characters (demo_init demo_tape) !! 0%nat.
Proof.
  apply (run_leaves_hidden_characters_alone demo_color_at demo_rain_setup
           demo_tick demo_args demo_top demo_characters demo_tape
           (demo_init demo_tape) (demo_after 2 demo_tape) 0
           demo_tape_init_ok (demo_tape_reaches 0 2 ltac:(lia))).
  assert (H : revealed (trace (demo_after 2 demo_tape)) = [2; 1]%nat)
    by (vm_compute; reflexivity).
  rewrite H. intros Hin.
  apply elem_of_cons in Hin as [Hin|Hin]; [discriminate|].
  apply elem_of_cons in Hin as [Hin|Hin]; [discriminate|].
  now apply elem_of_nil in Hin.
Defined.

(** On [demo_tape] the character 1 is dropped in the frame that
    reveals it, the second, and two frames later it is still out. *)
Lemma run_never_reactivates_witness :
  (1%nat ∉ active_chars (demo_after 4 demo_tape))
  /\ filter (eq 1%nat) (ticked (trace (demo_after 4 demo_tape)))
     = filter (eq 1%nat) (ticked (trace (demo_after 2 demo_tape))).
Proof.
  apply (run_never_reactivates demo_color_at demo_rain_setup demo_tick
           demo_args demo_top demo_characters demo_tape (demo_init demo_tape)
           (demo_after 2 demo_tape) (demo_after 4 demo_tape) 1
           demo_tape_init_ok (demo_tape_reaches 0 2 ltac:(lia))).
  - assert (H : revealed (trace (demo_after 2 demo_tape)) = [2; 1]%nat)
      by (vm_compute; reflexivity).
    rewrite H. apply elem_of_cons. right. apply elem_of_cons. now left.
  - assert (H : active_chars (demo_after 2 demo_tape) = [2]%nat)
      by (vm_compute; reflexivity).
    rewrite H. intros Hin.
    apply elem_of_cons in Hin as [Hin|Hin]; [discriminate|].
    now apply elem_of_nil in Hin.
  - exact (demo_tape_reaches 2 2 ltac:(lia)).
Defined.

Lemma prepare_data_groups_by_row_witness :
  (forall r grp,
     group_by_row demo_prepared !! r = Some grp
     <-> grp <> []
         /\ grp = filter (fun i => row_of demo_prepared i = r)
                    (seq 0 (length demo_characters)))
  /\ pending_chars demo_prepared = seq 0 (length demo_characters)
  /\ active_chars demo_prepared = []
  /\ trace demo_prepared = [].
Proof.
  exact (prepare_data_groups_by_row demo_color_at demo_rain_setup demo_args
           demo_top demo_characters [] demo_prepared demo_prepared_ok).
Defined.

Lemma frame_reveals_one_to_three_witness :
  (length (revealed (trace (demo_after 1 demo_tape))) <= length demo_characters)%nat
  /\ (length (revealed (trace (demo_after 2 demo_tape)))
      <= length (revealed (trace (demo_after 1 demo_tape))) + 3)%nat
  /\ ((length (revealed (trace (demo_after 1 demo_tape)))
       < length demo_characters)%nat ->
      (length (revealed (trace (demo_after 1 demo_tape)))
       < length (revealed (trace (demo_after 2 demo_tape))))%nat).
Proof.
  exact (frame_reveals_one_to_three demo_color_at demo_rain_setup demo_tick
           demo_args demo_top demo_characters demo_tape (demo_init demo_tape)
           (demo_after 1 demo_tape) (demo_after 2 demo_tape)
           demo_tape_init_ok (demo_tape_reaches 0 1 ltac:(lia))
           (proj2 (demo_tape_frame_ok 1 ltac:(lia)))).
Defined.

Lemma run_reveals_bottom_row_first_witness :
  StronglySorted Z.le
    (row_of (demo_init demo_tape) <$> revealed (trace (demo_after 4 demo_tape)))
  /\ forall i j,
       i ∈ revealed (trace (demo_after 4 demo_tape)) ->
       (j < length demo_characters)%nat ->
       j ∉ revealed (trace (demo_after 4 demo_tape)) ->
       row_of (demo_init demo_tape) i <= row_of (demo_init demo_tape) j.
Proof.
  exact (run_reveals_bottom_row_first demo_color_at demo_rain_setup demo_tick
           demo_args demo_top demo_characters demo_tape (demo_init demo_tape)
           (demo_after 4 demo_tape) demo_tape_init_ok
           (demo_tape_reaches 0 4 ltac:(lia))).
Defined.

(** The demo characters with the default arguments, speeds in
    thousandths. *)
Lemma prepare_data_with_defaults_witness :
  exists s',
    prepare_data demo_color_at demo_rain_setup (default_args 100 200 tt)
      demo_top (new_effect demo_characters []) = Ok s'.
Proof.
  apply (prepare_data_with_defaults demo_color_at demo_rain_setup 100 200 tt
           demo_top (new_effect demo_characters [])).
  discriminate.
Defined.


(** A character that has not moved is wiped out by its own clear. *)
Lemma print_character_on_screen_witness :
  paint (cell_writes (print_character demo_still true)) ∅ !! (2, 1) = Some " "
  /\ paint (cell_writes (print_character demo_moved true)) ∅ !! (3, 1) = Some "o".
Proof.
  split.
  - exact (proj1 (proj2 (proj2 (proj2 (proj2
             (print_character_on_screen demo_still ∅))))) eq_refl).
  - apply (proj1 (proj2 (proj2 (proj2 (print_character_on_screen demo_moved ∅))))).
    discriminate.
Defined.

End MoreDemoFacts.
